(** * ssh_edr: the SSH log detection engine

    A shallow embedding of [src/ssh_edr.py]: the four log patterns and the
    small part of Python's [re] they need, the [SSHEdr] object with its
    per-IP sliding windows, and the three [record_*] rules, followed by the
    properties of the engine. *)

From Stdlib Require Import ZArith Ascii String List Lia.
From stdpp Require Import gmap strings list fin_maps sorting.

Set Warnings "-clear-no-such-hyp".

Local Open Scope Z_scope.

(** ** Regular expressions

    The fragment of Python's [re] that the four patterns are written in:
    literal text, the classes [\S], [\d] and [.], greedy [+] and [*] over a
    class, sequence, alternation, a greedy optional part and numbered
    groups.  Lines are taken to be ASCII text. *)

Module Re.

Inductive cclass : Type :=
| NonSpace   (* \S *)
| Digit      (* \d *)
| AnyChar.   (* .  *)

Inductive regex : Type :=
| Lit (l : string)
| Plus (c : cclass)
| Star (c : cclass)
| Seq (r1 r2 : regex)
| Alt (r1 r2 : regex)
| Opt (r : regex)
| Group (n : nat) (r : regex).

(** [str.isspace] on the ASCII range: tab to carriage return, the four
    separators 28..31, and the space. *)
Definition is_space (a : ascii) : bool :=
  let n := nat_of_ascii a in
  ((9 <=? n) && (n <=? 13) || (28 <=? n) && (n <=? 32))%nat.

Definition is_digit (a : ascii) : bool :=
  let n := nat_of_ascii a in
  ((48 <=? n) && (n <=? 57))%nat.

Definition in_class (c : cclass) (a : ascii) : bool :=
  match c with
  | NonSpace => negb (is_space a)
  | Digit => is_digit a
  | AnyChar => negb (Ascii.eqb a "010"%char)
  end.

(** The groups of a match in progress: group number to captured text. *)
Abbreviation groups := (gmap nat (list ascii)).

Fixpoint strip_prefix (l s : list ascii) : option (list ascii) :=
  match l, s with
  | [], _ => Some s
  | a :: l', b :: s' => if Ascii.eqb a b then strip_prefix l' s' else None
  | _ :: _, [] => None
  end.

(** Greedy repetition of a class: take a character when possible, and give
    it back when the rest of the pattern fails. *)
Fixpoint many {R : Type} (c : cclass) (s : list ascii)
    (k : list ascii -> option R) : option R :=
  match s with
  | a :: s' =>
      if in_class c a then
        match many c s' k with
        | Some x => Some x
        | None => k s
        end
      else k s
  | [] => k s
  end.

(** Backtracking match of [r] at the head of [s]; [k] is the rest of the
    pattern. *)
Fixpoint rmatch (r : regex) (s : list ascii) (g : groups)
    (k : list ascii -> groups -> option groups) : option groups :=
  match r with
  | Lit l =>
      match strip_prefix (list_ascii_of_string l) s with
      | Some s' => k s' g
      | None => None
      end
  | Plus c =>
      match s with
      | a :: s' => if in_class c a then many c s' (fun t => k t g) else None
      | [] => None
      end
  | Star c => many c s (fun t => k t g)
  | Seq r1 r2 => rmatch r1 s g (fun t g' => rmatch r2 t g' k)
  | Alt r1 r2 =>
      match rmatch r1 s g k with
      | Some x => Some x
      | None => rmatch r2 s g k
      end
  | Opt r1 =>
      match rmatch r1 s g k with
      | Some x => Some x
      | None => k s g
      end
  | Group n r1 =>
      rmatch r1 s g
        (fun t g' => k t (<[n := take (length s - length t) s]> g'))
  end.

(** [pattern.search(line)]: the leftmost position where the pattern
    matches. *)
Fixpoint search_from (r : regex) (s : list ascii) : option groups :=
  match rmatch r s ∅ (fun _ g => Some g) with
  | Some g => Some g
  | None =>
      match s with
      | [] => None
      | _ :: s' => search_from r s'
      end
  end.

Definition search (r : regex) (line : string) : option groups :=
  search_from r (list_ascii_of_string line).

(** [m.group(n)] for a group that took part in the match; the groups that
    [parse_line] reads always do ([groups_read_are_bound] below). *)
Definition group (n : nat) (m : groups) : string :=
  string_of_list_ascii (default [] (m !! n)).

End Re.

Import Re.

(** A pattern written as the list of its parts; the empty literal that
    closes the list matches the empty text. *)
Definition seqs (rs : list regex) : regex :=
  foldr Seq (Lit "") rs.

(** [\d+\.\d+\.\d+\.\d+] *)
Definition DOTTED_QUAD : regex :=
  seqs [Plus Digit; Lit "."; Plus Digit; Lit "."; Plus Digit; Lit ".";
        Plus Digit].

Definition FAILED_RE : regex :=
  seqs [Lit "Failed password for ";
        Opt (seqs [Opt (Group 1 (Lit "invalid user "));
                   Group 2 (Plus NonSpace); Lit " "]);
        Lit "from "; Group 3 DOTTED_QUAD].

Definition INVALID_USER_RE : regex :=
  seqs [Lit "Invalid user "; Group 1 (Plus NonSpace); Lit " from ";
        Group 2 DOTTED_QUAD].

Definition ACCEPTED_RE : regex :=
  seqs [Lit "Accepted "; Alt (Lit "password") (Lit "publickey"); Lit " for ";
        Group 1 (Plus NonSpace); Lit " from "; Group 2 DOTTED_QUAD].

Definition PAM_FAILED_RE : regex :=
  seqs [Lit "authentication failure;"; Star AnyChar; Lit "rhost=";
        Group 1 DOTTED_QUAD].

(** ** The engine object *)

(** A value of an alert's [info] dictionary. *)
Inductive value : Type :=
| VStr (s : string)
| VInt (n : Z).

(** An alert as [_alert] builds it.  Its ['ts'] field, a separate reading of
    the wall clock formatted for display, is left out: no rule reads it. *)
Record alert : Type := mkAlert {
  kind : string;
  info : list (string * value)
}.

(** What a call leaves outside the object. *)
Inductive effect : Type :=
| EAlert (a : alert)            (* _alert: printed and written to ALERT_FILE *)
| EAction (cmd : list string)   (* _block_ip: "[ACTION] block ip: ..." *)
| EExec (cmd : list string).    (* _block_ip: subprocess.check_call(cmd) *)

(** Arrival times are readings of [datetime.utcnow()], counted in
    microseconds; a [timedelta] is a number of microseconds. *)
Definition timedelta (seconds : Z) : Z := 1000000 * seconds.

(** [int(td.total_seconds())] *)
Definition total_seconds (td : Z) : Z := Z.quot td 1000000.

(** A [deque] is the list of its items, oldest first: [dq[0]] is the head,
    [append] adds at the end and [popleft] removes the head. *)
Record SSHEdr : Type := mkSSHEdr {
  failed_threshold : Z;
  window : Z;
  invalid_threshold : Z;
  failed : gmap string (list Z);
  invalid_user : gmap string (list Z);
  successful_logins : gmap string (list (string * Z));
  known_user_ips : gmap string (gset string);
  alerts : list alert;
  dry_run : bool;
  execute_block : bool
}.

Definition __init__ (failed_threshold window_seconds invalid_threshold : Z)
    (dry_run execute_block : bool) : SSHEdr :=
  {| failed_threshold := failed_threshold;
     window := timedelta window_seconds;
     invalid_threshold := invalid_threshold;
     failed := ∅;
     invalid_user := ∅;
     successful_logins := ∅;
     known_user_ips := ∅;
     alerts := [];
     dry_run := dry_run;
     execute_block := execute_block |}.

Definition set_failed (m : gmap string (list Z)) (self : SSHEdr) : SSHEdr :=
  {| failed_threshold := failed_threshold self;
     window := window self;
     invalid_threshold := invalid_threshold self;
     failed := m;
     invalid_user := invalid_user self;
     successful_logins := successful_logins self;
     known_user_ips := known_user_ips self;
     alerts := alerts self;
     dry_run := dry_run self;
     execute_block := execute_block self |}.

Definition set_invalid_user (m : gmap string (list Z)) (self : SSHEdr)
    : SSHEdr :=
  {| failed_threshold := failed_threshold self;
     window := window self;
     invalid_threshold := invalid_threshold self;
     failed := failed self;
     invalid_user := m;
     successful_logins := successful_logins self;
     known_user_ips := known_user_ips self;
     alerts := alerts self;
     dry_run := dry_run self;
     execute_block := execute_block self |}.

Definition set_successful_logins (m : gmap string (list (string * Z)))
    (self : SSHEdr) : SSHEdr :=
  {| failed_threshold := failed_threshold self;
     window := window self;
     invalid_threshold := invalid_threshold self;
     failed := failed self;
     invalid_user := invalid_user self;
     successful_logins := m;
     known_user_ips := known_user_ips self;
     alerts := alerts self;
     dry_run := dry_run self;
     execute_block := execute_block self |}.

Definition set_known_user_ips (m : gmap string (gset string))
    (self : SSHEdr) : SSHEdr :=
  {| failed_threshold := failed_threshold self;
     window := window self;
     invalid_threshold := invalid_threshold self;
     failed := failed self;
     invalid_user := invalid_user self;
     successful_logins := successful_logins self;
     known_user_ips := m;
     alerts := alerts self;
     dry_run := dry_run self;
     execute_block := execute_block self |}.

Definition set_alerts (l : list alert) (self : SSHEdr) : SSHEdr :=
  {| failed_threshold := failed_threshold self;
     window := window self;
     invalid_threshold := invalid_threshold self;
     failed := failed self;
     invalid_user := invalid_user self;
     successful_logins := successful_logins self;
     known_user_ips := known_user_ips self;
     alerts := l;
     dry_run := dry_run self;
     execute_block := execute_block self |}.

(** ** Methods: a state monad over the object, with the effects written *)

Definition M (A : Type) : Type := SSHEdr → A * SSHEdr * list effect.

#[export] Instance M_ret : MRet M := λ A a self, (a, self, []).

#[export] Instance M_bind : MBind M := λ A B f m self,
  let '(a, self1, out1) := m self in
  let '(b, self2, out2) := f a self1 in
  (b, self2, out1 ++ out2).

Definition getf {A : Type} (f : SSHEdr → A) : M A :=
  λ self, (f self, self, []).

Definition modify (f : SSHEdr → SSHEdr) : M unit :=
  λ self, (tt, f self, []).

Definition emit (e : effect) : M unit :=
  λ self, (tt, self, [e]).

(** [d[k]] on a [defaultdict]: a missing key is first bound to a fresh
    default, so reading creates the entry. *)
Definition defaultdict_item {V : Type} (dflt : V) (k : string)
    (d : gmap string V) : V * gmap string V :=
  match d !! k with
  | Some v => (v, d)
  | None => (dflt, <[k := dflt]> d)
  end.

Definition failed_item (ip : string) : M (list Z) :=
  λ self, let r := defaultdict_item [] ip (failed self) in
          (r.1, set_failed r.2 self, []).

Definition invalid_user_item (ip : string) : M (list Z) :=
  λ self, let r := defaultdict_item [] ip (invalid_user self) in
          (r.1, set_invalid_user r.2 self, []).

Definition successful_logins_item (user : string) : M (list (string * Z)) :=
  λ self, let r := defaultdict_item [] user (successful_logins self) in
          (r.1, set_successful_logins r.2 self, []).

Definition known_user_ips_item (user : string) : M (gset string) :=
  λ self, let r := defaultdict_item ∅ user (known_user_ips self) in
          (r.1, set_known_user_ips r.2 self, []).

(** [len] *)
Definition len {A : Type} (l : list A) : Z := Z.of_nat (length l).

(** [while dq and dq[0] < cutoff: dq.popleft()] *)
Fixpoint _prune (dq : list Z) (cutoff : Z) : list Z :=
  match dq with
  | t :: dq' => if t <? cutoff then _prune dq' cutoff else dq
  | [] => []
  end.

(** [append] on a [deque(maxlen=n)]: the item is added at the end and, when
    that makes the deque longer than [n], the head is dropped. *)
Definition append_maxlen {A : Type} (n : nat) (dq : list A) (x : A) : list A :=
  let dq' := dq ++ [x] in
  if (n <? length dq')%nat then tail dq' else dq'.

Definition _alert (kind : string) (info : list (string * value)) : M unit :=
  let alert := {| kind := kind; info := info |} in
  modify (λ self, set_alerts (alerts self ++ [alert]) self);;
  emit (EAlert alert).

Definition block_cmd (ip : string) : list string :=
  ["iptables"; "-I"; "INPUT"; "-s"; ip; "-j"; "DROP"]%string.

Definition _block_ip (ip : string) : M unit :=
  let cmd := block_cmd ip in
  emit (EAction cmd);;
  execute ← getf execute_block;
  if (execute : bool) then emit (EExec cmd) else mret tt.

(** The three rules.  [now] is what [self._now()] returns in the call. *)
Definition record_failed (now : Z) (ip : string) : M unit :=
  dq ← failed_item ip;
  w ← getf window;
  let dq := _prune (dq ++ [now]) (now - w) in
  modify (λ self, set_failed (<[ip := dq]> (failed self)) self);;
  threshold ← getf failed_threshold;
  if len dq >=? threshold then
    _alert "brute_force_suspected"
      [("ip", VStr ip); ("count", VInt (len dq));
       ("window_s", VInt (total_seconds w))]%string;;
    dry ← getf dry_run;
    if negb dry then _block_ip ip else mret tt
  else mret tt.

Definition record_invalid_user (now : Z) (ip user : string) : M unit :=
  dq ← invalid_user_item ip;
  w ← getf window;
  let dq := _prune (dq ++ [now]) (now - w) in
  modify (λ self, set_invalid_user (<[ip := dq]> (invalid_user self)) self);;
  threshold ← getf invalid_threshold;
  if len dq >=? threshold then
    _alert "invalid_user_burst"
      [("ip", VStr ip); ("user", VStr user); ("count", VInt (len dq))]%string;;
    dry ← getf dry_run;
    if negb dry then _block_ip ip else mret tt
  else mret tt.

Definition record_success (now : Z) (user ip : string) : M unit :=
  dq ← failed_item ip;
  let fail_count := len dq in
  threshold ← getf failed_threshold;
  (if fail_count >=? Z.max 1 (threshold / 2) then
     _alert "successful_after_failures"
       [("user", VStr user); ("ip", VStr ip);
        ("recent_failed", VInt fail_count)]%string
   else mret tt);;
  known ← known_user_ips_item user;
  (if decide (ip ∈ known) then mret tt
   else
     _alert "login_from_new_ip" [("user", VStr user); ("ip", VStr ip)]%string;;
     known ← known_user_ips_item user;
     modify (λ self,
       set_known_user_ips (<[user := {[ip]} ∪ known]> (known_user_ips self))
         self));;
  history ← successful_logins_item user;
  modify (λ self,
    set_successful_logins
      (<[user := append_maxlen 50 history (ip, now)]> (successful_logins self))
      self).

(** [parse_line]: the patterns are tried in the order written, and the
    first that matches decides the call. *)
Definition parse_line (now : Z) (line : string) : M unit :=
  match search FAILED_RE line with
  | Some m => record_failed now (group 3 m)
  | None =>
  match search INVALID_USER_RE line with
  | Some m => record_invalid_user now (group 2 m) (group 1 m)
  | None =>
  match search ACCEPTED_RE line with
  | Some m => record_success now (group 1 m) (group 2 m)
  | None =>
  match search PAM_FAILED_RE line with
  | Some m => record_failed now (group 1 m)
  | None => mret tt
  end end end end.

(** ** Events

    The call that [parse_line] makes for a line, as a value.  The failed
    password pattern also captures a user, which [parse_line] does not
    read. *)
Inductive event : Type :=
| FailedLogin (ip : string)
| InvalidUserAttempt (ip user : string)
| SuccessfulLogin (user ip : string)
| AuthFailure (ip : string).

Definition classify (line : string) : option event :=
  match search FAILED_RE line with
  | Some m => Some (FailedLogin (group 3 m))
  | None =>
  match search INVALID_USER_RE line with
  | Some m => Some (InvalidUserAttempt (group 2 m) (group 1 m))
  | None =>
  match search ACCEPTED_RE line with
  | Some m => Some (SuccessfulLogin (group 1 m) (group 2 m))
  | None =>
  match search PAM_FAILED_RE line with
  | Some m => Some (AuthFailure (group 1 m))
  | None => None
  end end end end.

Definition process (now : Z) (e : event) : M unit :=
  match e with
  | FailedLogin ip => record_failed now ip
  | InvalidUserAttempt ip user => record_invalid_user now ip user
  | SuccessfulLogin user ip => record_success now user ip
  | AuthFailure ip => record_failed now ip
  end.

(** Events are handled one at a time, in arrival order; each comes with the
    clock reading of its call. *)
Fixpoint process_all (log : list (Z * event)) : M unit :=
  match log with
  | [] => mret tt
  | (now, e) :: log' => process now e;; process_all log'
  end.

(** The object and the effects a call leaves. *)
Definition state_of {A : Type} (r : A * SSHEdr * list effect) : SSHEdr := r.1.2.
Definition effects_of {A : Type} (r : A * SSHEdr * list effect) : list effect :=
  r.2.

(** ** Reading the outcome of a call *)

(** A block request is a call of [_block_ip], which always prints its
    command. *)
Definition block_requests (l : list effect) : list (list string) :=
  omap (λ e, match e with EAction cmd => Some cmd | _ => None end) l.

Definition alerts_of (l : list effect) : list alert :=
  omap (λ e, match e with EAlert a => Some a | _ => None end) l.

Definition brute_force_suspected (ip : string) (count window_s : Z) : alert :=
  {| kind := "brute_force_suspected";
     info := [("ip", VStr ip); ("count", VInt count);
              ("window_s", VInt window_s)]%string |}.

Definition invalid_user_burst (ip user : string) (count : Z) : alert :=
  {| kind := "invalid_user_burst";
     info := [("ip", VStr ip); ("user", VStr user);
              ("count", VInt count)]%string |}.

Definition successful_after_failures (user ip : string) (recent_failed : Z)
    : alert :=
  {| kind := "successful_after_failures";
     info := [("user", VStr user); ("ip", VStr ip);
              ("recent_failed", VInt recent_failed)]%string |}.

Definition login_from_new_ip (user ip : string) : alert :=
  {| kind := "login_from_new_ip";
     info := [("user", VStr user); ("ip", VStr ip)]%string |}.

(** The deque under a key, empty when the key is not there. *)
Definition deque_at {A : Type} (k : string) (d : gmap string (list A))
    : list A :=
  default [] (d !! k).

(** What [_block_ip] leaves. *)
Definition block_effects (ip : string) (self : SSHEdr) : list effect :=
  EAction (block_cmd ip) ::
  (if execute_block self then [EExec (block_cmd ip)] else []).

Definition gated_block (ip : string) (self : SSHEdr) : list effect :=
  if dry_run self then [] else block_effects ip self.

(** [record_success] in one piece: the alerts it raises and the object it
    leaves. *)
Definition success_alerts (user ip : string) (self : SSHEdr) : list alert :=
  let fail_count := len (deque_at ip (failed self)) in
  (if fail_count >=? Z.max 1 (failed_threshold self / 2)
   then [successful_after_failures user ip fail_count] else []) ++
  (if decide (ip ∈ default ∅ (known_user_ips self !! user))
   then [] else [login_from_new_ip user ip]).

Definition success_state (now : Z) (user ip : string) (self : SSHEdr)
    : SSHEdr :=
  let known := default ∅ (known_user_ips self !! user) in
  {| failed_threshold := failed_threshold self;
     window := window self;
     invalid_threshold := invalid_threshold self;
     failed := (defaultdict_item [] ip (failed self)).2;
     invalid_user := invalid_user self;
     successful_logins :=
       <[user := append_maxlen 50 (deque_at user (successful_logins self))
                   (ip, now)]> (successful_logins self);
     known_user_ips :=
       if decide (ip ∈ known)
       then (defaultdict_item ∅ user (known_user_ips self)).2
       else <[user := {[ip]} ∪ known]> (known_user_ips self);
     alerts := alerts self ++ success_alerts user ip self;
     dry_run := dry_run self;
     execute_block := execute_block self |}.

(** What [record_failed] and [record_invalid_user] store under [ip]. *)
Definition pruned (now : Z) (ip : string) (w : Z) (d : gmap string (list Z))
    : list Z :=
  _prune (deque_at ip d ++ [now]) (now - w).

(** The configuration is fixed once the object is built. *)
Definition config (self : SSHEdr) : Z * Z * Z * bool * bool :=
  (failed_threshold self, window self, invalid_threshold self, dry_run self,
   execute_block self).

(** *** Sequences of events *)

Definition after (log : list (Z * event)) (self : SSHEdr) : SSHEdr :=
  state_of (process_all log self).

Definition out (log : list (Z * event)) (self : SSHEdr) : list effect :=
  effects_of (process_all log self).

(** The block requests of one event. *)
Definition requested (e : event) (self' : SSHEdr) : list (list string) :=
  match e with
  | FailedLogin ip | AuthFailure ip =>
      if len (deque_at ip (failed self')) >=? failed_threshold self'
      then [block_cmd ip] else []
  | InvalidUserAttempt ip _ =>
      if len (deque_at ip (invalid_user self')) >=? invalid_threshold self'
      then [block_cmd ip] else []
  | SuccessfulLogin _ _ => []
  end.

Definition of_kind (k : string) (l : list alert) : list alert :=
  filter (λ a, kind a = k) l.

(** *** Sample lines

    A line in which both the failed-password and the invalid-user pattern
    match, and one line for each of the other cases. *)
Definition line_both : string :=
  "Invalid user bob from 198.51.100.9 Failed password for bob from 203.0.113.5".
Definition line_invalid : string :=
  "Invalid user admin from 198.51.100.9 port 40022".
Definition line_accepted : string :=
  "Accepted publickey for alice from 198.51.100.7 port 51234 ssh2".
Definition line_pam : string :=
  "pam_unix(sshd:auth): authentication failure; logname= uid=0 euid=0 tty=ssh ruser= rhost=203.0.113.5  user=root".
Definition line_other : string :=
  "Connection closed by 203.0.113.5 port 40022 [preauth]".

(** *** Which keys an event binds *)

Definition failed_keys (e : event) : gset string :=
  match e with
  | FailedLogin ip | AuthFailure ip | SuccessfulLogin _ ip => {[ip]}
  | InvalidUserAttempt _ _ => ∅
  end.

Definition invalid_user_keys (e : event) : gset string :=
  match e with
  | InvalidUserAttempt ip _ => {[ip]}
  | _ => ∅
  end.

(** A failure or invalid-user event for [ip]. *)
Definition is_failure_for (ip : string) (e : event) : bool :=
  match e with
  | FailedLogin ip' | AuthFailure ip' | InvalidUserAttempt ip' _ =>
      bool_decide (ip' = ip)
  | SuccessfulLogin _ _ => false
  end.

(** *** The success history *)

(** The [(ip, now)] pairs that the successful logins of [user] append, in
    arrival order. *)
Definition success_entries (user : string) (log : list (Z * event))
    : list (string * Z) :=
  omap (λ x, match x.2 with
             | SuccessfulLogin u ip =>
                 if decide (u = user) then Some (ip, x.1) else None
             | _ => None
             end) log.

(** The last [n] items of a list. *)
Definition last_n {A : Type} (n : nat) (l : list A) : list A :=
  drop (length l - n) l.

(** The object with its success histories put aside. *)
Definition without_history (self : SSHEdr) : SSHEdr :=
  set_successful_logins ∅ self.

(** *** Counting alerts, known addresses

    Alerts are compared structurally. *)

#[export] Instance value_eq_dec : EqDecision value.
Proof. solve_decision. Defined.

#[export] Instance alert_eq_dec : EqDecision alert.
Proof. solve_decision. Defined.

(** How many times an alert occurs in a list. *)
Definition count_of (a : alert) (l : list alert) : nat :=
  length (filter (λ x, x = a) l).

Definition known_at (user : string) (self : SSHEdr) : gset string :=
  default ∅ (known_user_ips self !! user).

Definition is_login (user ip : string) (e : event) : bool :=
  match e with
  | SuccessfulLogin u i => bool_decide (u = user ∧ i = ip)
  | _ => false
  end.

(** *** The window as a function of the arrival times *)

Definition is_failed_for (ip : string) (e : event) : bool :=
  match e with
  | FailedLogin i | AuthFailure i => bool_decide (i = ip)
  | _ => false
  end.

Definition is_invalid_for (ip : string) (e : event) : bool :=
  match e with
  | InvalidUserAttempt i _ => bool_decide (i = ip)
  | _ => false
  end.

(** The arrival times of the events that [sel] picks. *)
Definition times_of (sel : event → bool) (log : list (Z * event)) : list Z :=
  omap (λ x, if sel x.2 then Some x.1 else None) log.

(** The times within [w] of the latest one. *)
Definition window_of (w : Z) (ts : list Z) : list Z :=
  match last ts with
  | Some latest => filter (Z.le (latest - w)) ts
  | None => []
  end.

(** What a prune at [now] leaves of the deque [old]. *)
Definition window_pruned (cutoff now : Z) (old new : list Z) : Prop :=
  new = filter (Z.le cutoff) (old ++ [now]) ∧
  Forall (Z.le cutoff) new ∧
  StronglySorted Z.le new ∧
  new `suffix_of` (old ++ [now]).

(** *** Brute-force alerts of one IP *)

(** [d.get(k)] on an [info] dictionary. *)
Fixpoint dict_get (k : string) (d : list (string * value)) : option value :=
  match d with
  | (k', v) :: d' => if decide (k' = k) then Some v else dict_get k d'
  | [] => None
  end.

Definition is_brute_force_for (ip : string) (a : alert) : Prop :=
  kind a = "brute_force_suspected"%string ∧
  dict_get "ip" (info a) = Some (VStr ip).

#[export] Instance is_brute_force_for_dec ip a :
  Decision (is_brute_force_for ip a).
Proof. unfold is_brute_force_for. apply _. Defined.

Definition bf_alerts (ip : string) (l : list alert) : list alert :=
  filter (is_brute_force_for ip) l.

(** *** Groups that every match binds

    [binds r n]: group [n] takes part in every match of [r]. *)

Fixpoint binds (r : regex) (n : nat) : bool :=
  match r with
  | Group m r1 => bool_decide (m = n) || binds r1 n
  | Seq r1 r2 => binds r1 n || binds r2 n
  | Alt r1 r2 => binds r1 n && binds r2 n
  | _ => false
  end.

(** ** The rest of the program *)

(** *** Command-line arguments and the object built from them

    The namespace that [build_parser] yields, and the construction at the
    end of the script: [dry_run] is [not args.block]. *)
Module Args.
Record t : Type := mk {
  unit : string;
  failed_threshold : Z;
  window : Z;
  invalid_threshold : Z;
  stdin : bool;
  block : bool;
  execute_block : bool
}.
End Args.

Definition edr_of_args (args : Args.t) : SSHEdr :=
  __init__ (Args.failed_threshold args) (Args.window args)
    (Args.invalid_threshold args) (negb (Args.block args))
    (Args.execute_block args).

(** The commands handed to [subprocess.check_call], in order. *)
Definition execs (l : list effect) : list (list string) :=
  omap (λ e, match e with EExec cmd => Some cmd | _ => None end) l.

(** The addresses of the successful logins of [user] in a sequence. *)
Definition login_ips (user : string) (log : list (Z * event)) : gset string :=
  ⋃ (map (λ x, match x.2 with
               | SuccessfulLogin u ip => if decide (u = user) then {[ip]} else ∅
               | _ => ∅
               end) log).

(** An alert of kind [k] whose [info] names [ip]. *)
Definition is_alert_for (k ip : string) (a : alert) : Prop :=
  kind a = k ∧ dict_get "ip" (info a) = Some (VStr ip).

#[export] Instance is_alert_for_dec k ip a : Decision (is_alert_for k ip a).
Proof. unfold is_alert_for. apply _. Defined.

(** Two objects that the failure rule cannot tell apart at [ip]: the same
    threshold and window, and the same failure deque under [ip]. *)
Definition agree_on (ip : string) (s1 s2 : SSHEdr) : Prop :=
  failed_threshold s1 = failed_threshold s2 ∧
  window s1 = window s2 ∧
  deque_at ip (failed s1) = deque_at ip (failed s2).

(** Every deque of both windows is empty. *)
Definition all_empty (self : SSHEdr) : Prop :=
  (∀ ip, deque_at ip (failed self) = []) ∧
  (∀ ip, deque_at ip (invalid_user self) = []).

(** *** Text after the address

    Every pattern ends with the dotted quad.  [plain] characters are those
    a dotted quad cannot hold. *)
Definition plain (a : ascii) : bool :=
  negb (is_digit a) && negb (Ascii.eqb a "."%char).

(** [r] never takes a plain character. *)
Fixpoint tail_free (r : regex) : Prop :=
  match r with
  | Lit l => Forall (λ a, plain a = false) (list_ascii_of_string l)
  | Plus c | Star c => ∀ a, plain a = true → in_class c a = false
  | Seq r1 r2 | Alt r1 r2 => tail_free r1 ∧ tail_free r2
  | Opt r1 | Group _ r1 => tail_free r1
  end.

(** [r] needs a first character, and not a plain one. *)
Fixpoint tail_stuck (r : regex) : Prop :=
  match r with
  | Lit l =>
      match list_ascii_of_string l with
      | a :: _ => plain a = false
      | [] => False
      end
  | Plus c => ∀ a, plain a = true → in_class c a = false
  | Seq r1 _ | Group _ r1 => tail_stuck r1
  | Alt r1 r2 => tail_stuck r1 ∧ tail_stuck r2
  | Star _ | Opt _ => False
  end.

(** [r] ends with a part that takes no plain character and needs a first
    one. *)
Fixpoint ends_in_address (r : regex) : Prop :=
  (tail_free r ∧ tail_stuck r) ∨
  match r with
  | Seq _ r2 => ends_in_address r2
  | Group _ r1 => ends_in_address r1
  | Alt r1 r2 => ends_in_address r1 ∧ ends_in_address r2
  | _ => False
  end.

(** *** The line loop *)

(** [s.rstrip(chars)]: the trailing characters that occur in [chars] are
    dropped. *)
Fixpoint rstrip_list (chars s : list ascii) : list ascii :=
  match s with
  | [] => []
  | a :: s' =>
      match rstrip_list chars s' with
      | [] => if existsb (Ascii.eqb a) chars then [] else [a]
      | r => a :: r
      end
  end.

Definition rstrip (chars s : string) : string :=
  string_of_list_ascii
    (rstrip_list (list_ascii_of_string chars) (list_ascii_of_string s)).

(** The argument of [rstrip] in [run] and in [tail_journal]: the source
    writes it with a doubled backslash, so it is the two characters
    backslash and [n], not a newline. *)
Definition STRIP_CHARS : string :=
  String "\"%char (String "n"%char EmptyString).

(** The newline character. *)
Definition NL : string := String "010"%char EmptyString.

(** What [run] writes: its own banner, and what the methods leave. *)
Inductive output : Type :=
| Print (s : string)
| Effect (e : effect).

(** [tail_journal], once [journalctl] has started: each line of its output
    is yielded stripped.  The two exits taken when it cannot be started
    are not part of the model. *)
Definition tail_journal (raw : list (Z * string)) : list (Z * string) :=
  map (λ x, (x.1, rstrip STRIP_CHARS x.2)) raw.

Fixpoint parse_lines (lines : list (Z * string)) : M unit :=
  match lines with
  | [] => mret tt
  | (now, ln) :: rest => parse_line now ln;; parse_lines rest
  end.

Definition banner (args : Args.t) : string :=
  if Args.stdin args then "Reading logs from stdin..."
  else "Tailing journal unit '" +:+ Args.unit args +:+
       "' (press Ctrl+C to stop)...".

(** [run]: [source] is what [sys.stdin], or the output of [journalctl],
    yields, each line with the clock reading of its call. *)
Definition run (args : Args.t) (source : list (Z * string)) (self : SSHEdr)
    : SSHEdr * list output :=
  let lines :=
    if Args.stdin args
    then map (λ x, (x.1, rstrip STRIP_CHARS x.2)) source
    else tail_journal source in
  let r := parse_lines lines self in
  (state_of r, Print (banner args) :: map Effect (effects_of r)).

(** The events of the lines of a source, in order; lines that no pattern
    matches give none. *)
Definition events_of (source : list (Z * string)) : list (Z * event) :=
  omap (λ x, (λ e, (x.1, e)) <$> classify x.2) source.

(** *** What a pattern can take

    The texts a pattern matches, and a condition on the text of each
    group. *)
Fixpoint matches (r : regex) (p : list ascii) : Prop :=
  match r with
  | Lit l => p = list_ascii_of_string l
  | Plus c => p ≠ [] ∧ forallb (in_class c) p = true
  | Star c => forallb (in_class c) p = true
  | Seq r1 r2 => ∃ p1 p2, p = p1 ++ p2 ∧ matches r1 p1 ∧ matches r2 p2
  | Alt r1 r2 => matches r1 p ∨ matches r2 p
  | Opt r1 => p = [] ∨ matches r1 p
  | Group _ r1 => matches r1 p
  end.

Fixpoint group_ok (P : nat → list ascii → Prop) (r : regex) : Prop :=
  match r with
  | Group n r1 => (∀ p, matches r1 p → P n p) ∧ group_ok P r1
  | Seq r1 r2 | Alt r1 r2 => group_ok P r1 ∧ group_ok P r2
  | Opt r1 => group_ok P r1
  | _ => True
  end.

(** [s.split(sep)] *)
Fixpoint fields (sep : ascii) (s : list ascii) : list (list ascii) :=
  match s with
  | [] => [[]]
  | a :: s' =>
      if Ascii.eqb a sep then [] :: fields sep s'
      else match fields sep s' with
           | f :: fs => (a :: f) :: fs
           | [] => [[a]]
           end
  end.

(** A non-empty run of digits. *)
Definition digits (f : list ascii) : bool :=
  match f with
  | [] => false
  | _ => forallb is_digit f
  end.

(** Four runs of digits with dots between them. *)
Definition dotted_quad (ip : string) : bool :=
  match fields "."%char (list_ascii_of_string ip) with
  | [a; b; c; d] => digits a && digits b && digits c && digits d
  | _ => false
  end.

(** A non-empty text without white space. *)
Definition user_ok (user : string) : bool :=
  match list_ascii_of_string user with
  | [] => false
  | l => forallb (λ a, negb (is_space a)) l
  end.

Definition event_ip (e : event) : string :=
  match e with
  | FailedLogin ip | InvalidUserAttempt ip _ | SuccessfulLogin _ ip
  | AuthFailure ip => ip
  end.

Definition event_user (e : event) : option string :=
  match e with
  | InvalidUserAttempt _ user | SuccessfulLogin user _ => Some user
  | FailedLogin _ | AuthFailure _ => None
  end.

(** What the groups of the patterns hold, by the number of the group that
    holds the user and of the one that holds the address. *)
Definition group_shape (user_group ip_group : nat) (n : nat)
    (txt : list ascii) : Prop :=
  (n = ip_group → dotted_quad (string_of_list_ascii txt) = true) ∧
  (n = user_group → user_ok (string_of_list_ascii txt) = true).

(** The object with its two flags replaced. *)
Definition set_flags (dry execute : bool) (self : SSHEdr) : SSHEdr :=
  {| failed_threshold := failed_threshold self;
     window := window self;
     invalid_threshold := invalid_threshold self;
     failed := failed self;
     invalid_user := invalid_user self;
     successful_logins := successful_logins self;
     known_user_ips := known_user_ips self;
     alerts := alerts self;
     dry_run := dry;
     execute_block := execute |}.

(** * Proofs *)

(** ** Equations of the rules *)

(** One step of a method body: reduce the monad, keep arithmetic, map
    updates and the bounded append folded. *)
Ltac mstep :=
  cbn -[_prune Z.geb Z.sub Z.max Z.div total_seconds insert append_maxlen].

(** The alerts of [EAlert a :: gated_block ip self]. *)
Ltac alert_head :=
  change (alerts_of (EAlert ?a :: ?l)) with (a :: alerts_of l).

Lemma record_failed_eq now ip self :
  let dq := _prune (deque_at ip (failed self) ++ [now]) (now - window self) in
  let self' := set_failed (<[ip := dq]> (failed self)) self in
  let a := brute_force_suspected ip (len dq) (total_seconds (window self)) in
  record_failed now ip self =
    if len dq >=? failed_threshold self
    then (tt, set_alerts (alerts self ++ [a]) self',
          EAlert a :: gated_block ip self)
    else (tt, self', []).
Proof.
  destruct self as [ft w it f iu sl ku al dr ex].
  unfold record_failed, deque_at, gated_block, block_effects, failed_item,
    defaultdict_item, mbind, M_bind, mret, M_ret, getf, modify, _alert,
    _block_ip, emit, set_failed, set_alerts, brute_force_suspected.
  mstep.
  destruct (f !! ip) as [dq0|] eqn:Hf; mstep;
    rewrite ?insert_insert_eq;
    destruct (len _ >=? ft); mstep;
    destruct dr, ex; reflexivity.
Qed.

Lemma record_invalid_user_eq now ip user self :
  let dq :=
    _prune (deque_at ip (invalid_user self) ++ [now]) (now - window self) in
  let self' := set_invalid_user (<[ip := dq]> (invalid_user self)) self in
  let a := invalid_user_burst ip user (len dq) in
  record_invalid_user now ip user self =
    if len dq >=? invalid_threshold self
    then (tt, set_alerts (alerts self ++ [a]) self',
          EAlert a :: gated_block ip self)
    else (tt, self', []).
Proof.
  destruct self as [ft w it f iu sl ku al dr ex].
  unfold record_invalid_user, deque_at, gated_block, block_effects,
    invalid_user_item, defaultdict_item, mbind, M_bind, mret, M_ret, getf,
    modify, _alert, _block_ip, emit, set_invalid_user, set_alerts,
    invalid_user_burst.
  mstep.
  destruct (iu !! ip) as [dq0|] eqn:Hf; mstep;
    rewrite ?insert_insert_eq;
    destruct (len _ >=? it); mstep;
    destruct dr, ex; reflexivity.
Qed.

Lemma record_success_eq now user ip self :
  record_success now user ip self =
    (tt, success_state now user ip self,
     map EAlert (success_alerts user ip self)).
Proof.
  destruct self as [ft w it f iu sl ku al dr ex].
  unfold record_success, _alert, success_state, success_alerts, deque_at,
    failed_item, known_user_ips_item, successful_logins_item,
    defaultdict_item, mbind, M_bind, mret, M_ret, getf, modify, emit,
    set_failed, set_known_user_ips, set_successful_logins, set_alerts.
  mstep.
  destruct (f !! ip) as [dq0|] eqn:Hf, (ku !! user) as [known|] eqn:Hk,
     (sl !! user) as [h|] eqn:Hs;
    mstep.
  all: destruct (len _ >=? Z.max 1 (ft / 2));
    mstep.
  all: rewrite ?Hk; mstep.
  all: destruct (decide (ip ∈ _)) as [Hin|Hin];
    mstep.
  all: rewrite ?Hk, ?Hs, ?lookup_insert_eq;
    mstep.
  all: rewrite ?Hk, ?Hs, ?insert_insert_eq, ?app_nil_r, <- ?app_assoc.
  all:  reflexivity.
Qed.

(** ** Projections of the rules *)

Lemma record_failed_failed now ip self :
  failed (state_of (record_failed now ip self)) =
    <[ip := pruned now ip (window self) (failed self)]> (failed self).
Proof.
  pose proof (record_failed_eq now ip self) as H. cbv zeta in H. rewrite H.
  unfold pruned. destruct (len _ >=? _); reflexivity.
Qed.

Lemma record_failed_effects now ip self :
  effects_of (record_failed now ip self) =
    let n := len (pruned now ip (window self) (failed self)) in
    if n >=? failed_threshold self
    then EAlert (brute_force_suspected ip n (total_seconds (window self)))
         :: gated_block ip self
    else [].
Proof.
  pose proof (record_failed_eq now ip self) as H. cbv zeta in H. rewrite H.
  unfold pruned. cbv zeta. destruct (len _ >=? _); reflexivity.
Qed.

Lemma record_invalid_user_invalid_user now ip user self :
  invalid_user (state_of (record_invalid_user now ip user self)) =
    <[ip := pruned now ip (window self) (invalid_user self)]>
      (invalid_user self).
Proof.
  pose proof (record_invalid_user_eq now ip user self) as H. cbv zeta in H.
  rewrite H. unfold pruned. destruct (len _ >=? _); reflexivity.
Qed.

Lemma record_invalid_user_effects now ip user self :
  effects_of (record_invalid_user now ip user self) =
    let n := len (pruned now ip (window self) (invalid_user self)) in
    if n >=? invalid_threshold self
    then EAlert (invalid_user_burst ip user n) :: gated_block ip self
    else [].
Proof.
  pose proof (record_invalid_user_eq now ip user self) as H. cbv zeta in H.
  rewrite H. unfold pruned. cbv zeta. destruct (len _ >=? _); reflexivity.
Qed.

Lemma record_failed_frame now ip self :
  let self' := state_of (record_failed now ip self) in
  failed_threshold self' = failed_threshold self ∧
  window self' = window self ∧
  invalid_threshold self' = invalid_threshold self ∧
  invalid_user self' = invalid_user self ∧
  successful_logins self' = successful_logins self ∧
  known_user_ips self' = known_user_ips self ∧
  dry_run self' = dry_run self ∧
  execute_block self' = execute_block self.
Proof.
  pose proof (record_failed_eq now ip self) as H. cbv zeta in *. rewrite H.
  destruct (len _ >=? _); repeat split; reflexivity.
Qed.

Lemma record_invalid_user_frame now ip user self :
  let self' := state_of (record_invalid_user now ip user self) in
  failed_threshold self' = failed_threshold self ∧
  window self' = window self ∧
  invalid_threshold self' = invalid_threshold self ∧
  failed self' = failed self ∧
  successful_logins self' = successful_logins self ∧
  known_user_ips self' = known_user_ips self ∧
  dry_run self' = dry_run self ∧
  execute_block self' = execute_block self.
Proof.
  pose proof (record_invalid_user_eq now ip user self) as H. cbv zeta in *.
  rewrite H. destruct (len _ >=? _); repeat split; reflexivity.
Qed.

Lemma record_success_frame now user ip self :
  let self' := state_of (record_success now user ip self) in
  failed_threshold self' = failed_threshold self ∧
  window self' = window self ∧
  invalid_threshold self' = invalid_threshold self ∧
  invalid_user self' = invalid_user self ∧
  dry_run self' = dry_run self ∧
  execute_block self' = execute_block self.
Proof.
  cbv zeta. rewrite record_success_eq. repeat split; reflexivity.
Qed.

Lemma process_config now e self :
  config (state_of (process now e self)) = config self.
Proof.
  unfold config. destruct e as [ip|ip user|user ip|ip]; cbn [process].
  - destruct (record_failed_frame now ip self) as (-> & -> & -> & _ & _ & _ & -> & ->).
    reflexivity.
  - destruct (record_invalid_user_frame now ip user self)
      as (-> & -> & -> & _ & _ & _ & -> & ->).
    reflexivity.
  - destruct (record_success_frame now user ip self)
      as (-> & -> & -> & _ & -> & ->).
    reflexivity.
  - destruct (record_failed_frame now ip self) as (-> & -> & -> & _ & _ & _ & -> & ->).
    reflexivity.
Qed.

(** ** Sequences of events *)

Lemma process_all_cons now e log self :
  process_all ((now, e) :: log) self =
    (tt, after log (state_of (process now e self)),
     effects_of (process now e self) ++
     out log (state_of (process now e self))).
Proof.
  unfold after, out, state_of, effects_of. cbn [process_all].
  unfold mbind, M_bind.
  destruct (process now e self) as [[[] s1] o1]. cbn [fst snd].
  destruct (process_all log s1) as [[[] s2] o2]. reflexivity.
Qed.

Lemma after_nil self : after [] self = self.
Proof. reflexivity. Qed.

Lemma out_nil self : out [] self = [].
Proof. reflexivity. Qed.

Lemma after_cons now e log self :
  after ((now, e) :: log) self = after log (state_of (process now e self)).
Proof. unfold after at 1. rewrite process_all_cons. reflexivity. Qed.

Lemma out_cons now e log self :
  out ((now, e) :: log) self =
    effects_of (process now e self) ++
    out log (state_of (process now e self)).
Proof. unfold out at 1. rewrite process_all_cons. reflexivity. Qed.

Lemma after_app log1 log2 self :
  after (log1 ++ log2) self = after log2 (after log1 self).
Proof.
  revert self. induction log1 as [|[now e] log1 IH]; intros self; [done|].
  cbn [app]. rewrite !after_cons. apply IH.
Qed.

Lemma out_app log1 log2 self :
  out (log1 ++ log2) self = out log1 self ++ out log2 (after log1 self).
Proof.
  revert self. induction log1 as [|[now e] log1 IH]; intros self; [done|].
  cbn [app]. rewrite !out_cons, after_cons, IH, app_assoc. reflexivity.
Qed.

Lemma after_snoc log now e self :
  after (log ++ [(now, e)]) self = state_of (process now e (after log self)).
Proof. rewrite after_app, after_cons, after_nil. reflexivity. Qed.

Lemma out_snoc log now e self :
  out (log ++ [(now, e)]) self =
    out log self ++ effects_of (process now e (after log self)).
Proof. rewrite out_app, out_cons, out_nil, app_nil_r. reflexivity. Qed.

Lemma after_config log self : config (after log self) = config self.
Proof.
  revert self. induction log as [|[now e] log IH]; intros self; [done|].
  rewrite after_cons, IH. apply process_config.
Qed.

(** ** Deques and effects *)

Lemma deque_at_insert {A : Type} (k : string) (dq : list A)
    (d : gmap string (list A)) :
  deque_at k (<[k := dq]> d) = dq.
Proof. unfold deque_at. rewrite lookup_insert_eq. reflexivity. Qed.

Lemma deque_at_insert_ne {A : Type} (k k' : string) (dq : list A)
    (d : gmap string (list A)) :
  k ≠ k' → deque_at k' (<[k := dq]> d) = deque_at k' d.
Proof. intros H. unfold deque_at. rewrite lookup_insert_ne; done. Qed.

Lemma deque_at_item {A : Type} (k k' : string) (d : gmap string (list A)) :
  deque_at k' (defaultdict_item [] k d).2 = deque_at k' d.
Proof.
  unfold defaultdict_item, deque_at.
  destruct (d !! k) eqn:Hk; cbn [snd]; [done|].
  destruct (decide (k = k')) as [->|Hne].
  - rewrite lookup_insert_eq, Hk. reflexivity.
  - rewrite lookup_insert_ne; done.
Qed.

Lemma block_requests_app l1 l2 :
  block_requests (l1 ++ l2) = block_requests l1 ++ block_requests l2.
Proof. apply omap_app. Qed.

Lemma block_requests_alerts (l : list alert) :
  block_requests (map EAlert l) = [].
Proof. induction l; [done|]. cbn. exact IHl. Qed.

Lemma block_requests_alert a l :
  block_requests (EAlert a :: l) = block_requests l.
Proof. reflexivity. Qed.

Lemma block_requests_gated ip self :
  block_requests (gated_block ip self) =
    if dry_run self then [] else [block_cmd ip].
Proof.
  unfold gated_block, block_effects.
  destruct (dry_run self), (execute_block self); reflexivity.
Qed.

Lemma alerts_of_app l1 l2 :
  alerts_of (l1 ++ l2) = alerts_of l1 ++ alerts_of l2.
Proof. apply omap_app. Qed.

Lemma alerts_of_alerts (l : list alert) : alerts_of (map EAlert l) = l.
Proof. induction l; [done|]. cbn. f_equal. exact IHl. Qed.

Lemma alerts_of_gated ip self : alerts_of (gated_block ip self) = [].
Proof.
  unfold gated_block, block_effects.
  destruct (dry_run self), (execute_block self); reflexivity.
Qed.

(** ** Block requests *)

Lemma process_block_requests now e self :
  block_requests (effects_of (process now e self)) =
    if dry_run self then []
    else requested e (state_of (process now e self)).
Proof.
  destruct e as [ip|ip user|user ip|ip]; cbn [process requested].
  - destruct (record_failed_frame now ip self) as (-> & _).
    rewrite record_failed_effects, record_failed_failed, deque_at_insert.
    cbv zeta. destruct (len _ >=? _).
    + rewrite block_requests_alert, block_requests_gated. reflexivity.
    + destruct (dry_run self); reflexivity.
  - destruct (record_invalid_user_frame now ip user self) as (_ & _ & -> & _).
    rewrite record_invalid_user_effects, record_invalid_user_invalid_user,
      deque_at_insert.
    cbv zeta. destruct (len _ >=? _).
    + rewrite block_requests_alert, block_requests_gated. reflexivity.
    + destruct (dry_run self); reflexivity.
  - rewrite record_success_eq. unfold effects_of. cbn [snd].
    rewrite block_requests_alerts. destruct (dry_run self); reflexivity.
  - destruct (record_failed_frame now ip self) as (-> & _).
    rewrite record_failed_effects, record_failed_failed, deque_at_insert.
    cbv zeta. destruct (len _ >=? _).
    + rewrite block_requests_alert, block_requests_gated. reflexivity.
    + destruct (dry_run self); reflexivity.
Qed.

Lemma after_dry_run log self : dry_run (after log self) = dry_run self.
Proof.
  pose proof (after_config log self) as H. unfold config in H. congruence.
Qed.

Lemma dry_run_no_block log self :
  dry_run self = true → block_requests (out log self) = [].
Proof.
  revert self. induction log as [|[now e] log IH]; intros self Hdry; [done|].
  rewrite out_cons, block_requests_app, process_block_requests, Hdry.
  apply IH.
  pose proof (process_config now e self) as H. unfold config in H. congruence.
Qed.

(** C2. Dry-run gating.  With [dry_run] set, no sequence of events ever
    calls [_block_ip].  With [dry_run] clear, each event of a sequence calls
    it exactly once, for the event's own IP, when the deque it has just
    pruned holds at least [failed_threshold] entries (failed password and
    PAM failure) or [invalid_threshold] entries (invalid user), and not at
    all otherwise. *)
Theorem dry_run_gating (self : SSHEdr) (log : list (Z * event)) :
  (dry_run self = true → block_requests (out log self) = []) ∧
  (dry_run self = false →
   ∀ pre now e post, log = pre ++ (now, e) :: post →
     let before := after pre self in
     block_requests (effects_of (process now e before)) =
       requested e (state_of (process now e before))).
Proof.
  split.
  - apply dry_run_no_block.
  - intros Hdry pre now e post _ before.
    rewrite process_block_requests. unfold before.
    rewrite after_dry_run, Hdry. reflexivity.
Qed.

Lemma dry_run_gating_witness :
  block_requests
    (out [(1, FailedLogin "203.0.113.5"); (2, AuthFailure "203.0.113.5");
          (3, InvalidUserAttempt "203.0.113.5" "root")]
       (__init__ 2 60 1 true true)) = [] ∧
  block_requests
    (effects_of
       (process 2 (AuthFailure "203.0.113.5")
          (after [(1, FailedLogin "203.0.113.5")]
             (__init__ 2 60 1 false false)))) =
    [block_cmd "203.0.113.5"].
Proof.
  split.
  - apply (proj1 (dry_run_gating (__init__ 2 60 1 true true) _)).
    reflexivity.
  - apply (proj2 (dry_run_gating (__init__ 2 60 1 false false)
                    [(1, FailedLogin "203.0.113.5");
                     (2, AuthFailure "203.0.113.5")])
             eq_refl [(1, FailedLogin "203.0.113.5")] 2
             (AuthFailure "203.0.113.5") [] eq_refl).
Defined.

(** C10. A successful login never blocks: whatever the object holds and
    however it is configured, everything [record_success] leaves outside
    the object is an alert; there is no block command, printed or run. *)
Theorem success_never_blocks (self : SSHEdr) (now : Z) (user ip : string) :
  let effs := effects_of (process now (SuccessfulLogin user ip) self) in
  block_requests effs = [] ∧
  Forall (λ e, ∃ a, e = EAlert a) effs.
Proof.
  cbn [process]. rewrite record_success_eq. unfold effects_of. cbn [snd].
  split.
  - apply block_requests_alerts.
  - apply Forall_forall. intros e He. apply list_elem_of_fmap in He.
    destruct He as (a & -> & _). eauto.
Qed.

(** ** Successful logins and the failure deque *)

(** C3. The successful-login rule reads the failure deque as it stands.
    [record_success] leaves every failure deque exactly as it found it,
    whatever the clock says and however old the entries are, and raises
    [successful_after_failures] if and only if the length of the deque of
    the login's IP is at least [max(1, failed_threshold // 2)]; the alert
    reports that length. *)
Theorem success_reads_unpruned (self : SSHEdr) (now : Z) (user ip : string) :
  let r := process now (SuccessfulLogin user ip) self in
  let n := len (deque_at ip (failed self)) in
  (∀ ip', deque_at ip' (failed (state_of r)) = deque_at ip' (failed self)) ∧
  of_kind "successful_after_failures" (alerts_of (effects_of r)) =
    if n >=? Z.max 1 (failed_threshold self / 2)
    then [successful_after_failures user ip n] else [].
Proof.
  cbn [process]. rewrite record_success_eq.
  unfold state_of, effects_of. cbn [fst snd success_state failed].
  split.
  - intros ip'. apply deque_at_item.
  - rewrite alerts_of_alerts. unfold success_alerts, of_kind.
    destruct (len _ >=? _), (decide (ip ∈ _)); reflexivity.
Qed.

(** Entries far older than the window still count: three failures, then a
    login a thousand seconds later with a window of sixty. *)
Example success_counts_stale_failures :
  let ip := "203.0.113.5"%string in
  alerts_of
    (effects_of
       (process 1000000000 (SuccessfulLogin "alice" ip)
          (after [(0, FailedLogin ip); (1, FailedLogin ip);
                  (2, FailedLogin ip)]
             (__init__ 5 60 8 true false)))) =
    [successful_after_failures "alice" ip 3; login_from_new_ip "alice" ip].
Proof. vm_compute. reflexivity. Qed.

(** ** The two windows *)

(** C6. The two windows are separate state.  An invalid-user event leaves
    the whole [failed] map as it was and rewrites one entry of
    [invalid_user], that of its IP: the old deque with the arrival time
    appended, then pruned; the count compared with [invalid_threshold] is
    the length of that entry.  A failed-password or PAM-failure event leaves
    the whole [invalid_user] map as it was. *)
Theorem windows_independent (self : SSHEdr) (now : Z) (ip user : string) :
  let r := process now (InvalidUserAttempt ip user) self in
  let dq :=
    _prune (deque_at ip (invalid_user self) ++ [now]) (now - window self) in
  failed (state_of r) = failed self ∧
  invalid_user (state_of r) = <[ip := dq]> (invalid_user self) ∧
  alerts_of (effects_of r) =
    (if len dq >=? invalid_threshold self
     then [invalid_user_burst ip user (len dq)] else []) ∧
  invalid_user (state_of (process now (FailedLogin ip) self)) =
    invalid_user self ∧
  invalid_user (state_of (process now (AuthFailure ip) self)) =
    invalid_user self.
Proof.
  cbn [process]. cbv zeta.
  destruct (record_invalid_user_frame now ip user self)
    as (_ & _ & _ & Hf & _).
  destruct (record_failed_frame now ip self) as (_ & _ & _ & Hi & _).
  rewrite record_invalid_user_invalid_user, record_invalid_user_effects.
  repeat split; try assumption.
  cbv zeta. unfold pruned. destruct (len _ >=? _); [|done].
  alert_head.
  rewrite alerts_of_gated. reflexivity.
Qed.

(** ** Groups that every match binds *)

Lemma many_inv {R : Type} c s (k : list ascii → option R) res :
  many c s k = Some res → ∃ t, k t = Some res.
Proof.
  induction s as [|a s IH]; cbn [many]; [eauto|].
  destruct (in_class c a); [|eauto].
  destruct (many c s k) eqn:Hm; [|eauto].
  intros [= <-]. auto.
Qed.

Lemma rmatch_binds r : ∀ s g k res,
  rmatch r s g k = Some res →
  ∃ t g', k t g' = Some res ∧
    ∀ n, binds r n = true ∨ is_Some (g !! n) → is_Some (g' !! n).
Proof.
  induction r as [l|c|c|r1 IH1 r2 IH2|r1 IH1 r2 IH2|r1 IH1|m r1 IH1];
    intros s g k res; cbn [rmatch binds].
  - destruct (strip_prefix _ s) as [s'|]; [|done].
    intros Hk. exists s', g. split; [done|]. intros n [?|?]; done.
  - destruct s as [|a s]; [done|]. destruct (in_class c a); [|done].
    intros [t Hk]%many_inv. exists t, g. split; [done|]. intros n [?|?]; done.
  - intros [t Hk]%many_inv. exists t, g. split; [done|]. intros n [?|?]; done.
  - intros (t & g1 & H2 & Hg1)%IH1. apply IH2 in H2 as (t' & g2 & Hk & Hg2).
    exists t', g2. split; [done|]. intros n [Hb|Hg].
    + apply orb_true_iff in Hb as [Hb|Hb]; auto.
    + auto.
  - destruct (rmatch r1 s g k) eqn:H1.
    + intros [= <-]. apply IH1 in H1 as (t & g1 & Hk & Hg1).
      exists t, g1. split; [done|]. intros n [Hb|Hg]; [|auto].
      apply andb_true_iff in Hb as [Hb _]. auto.
    + intros (t & g1 & Hk & Hg1)%IH2.
      exists t, g1. split; [done|]. intros n [Hb|Hg]; [|auto].
      apply andb_true_iff in Hb as [_ Hb]. auto.
  - destruct (rmatch r1 s g k) eqn:H1.
    + intros [= <-]. apply IH1 in H1 as (t & g1 & Hk & Hg1).
      exists t, g1. split; [done|]. intros n [Hb|Hg]; [done|auto].
    + intros Hk. exists s, g. split; [done|]. intros n [?|?]; done.
  - intros (t & g1 & Hk & Hg1)%IH1.
    eexists t, _. split; [exact Hk|]. intros n [Hb|Hg].
    + apply orb_true_iff in Hb as [Hb|Hb].
      * apply bool_decide_eq_true in Hb as ->. rewrite lookup_insert_eq. eauto.
      * destruct (decide (m = n)) as [->|Hne].
        -- rewrite lookup_insert_eq. eauto.
        -- rewrite lookup_insert_ne by done. auto.
    + destruct (decide (m = n)) as [->|Hne].
      * rewrite lookup_insert_eq. eauto.
      * rewrite lookup_insert_ne by done. auto.
Qed.

Lemma search_from_binds r s m n :
  search_from r s = Some m → binds r n = true → is_Some (m !! n).
Proof.
  intros Hs Hb. induction s as [|a s IH]; cbn [search_from] in Hs.
  - destruct (rmatch r [] ∅ _) eqn:Hm; [|done]. injection Hs as ->.
    apply rmatch_binds in Hm as (t & g' & [= ->] & Hg). auto.
  - destruct (rmatch r (a :: s) ∅ _) eqn:Hm; [|auto]. injection Hs as ->.
    apply rmatch_binds in Hm as (t & g' & [= ->] & Hg). auto.
Qed.

(** The groups that [parse_line] reads take part in every match of their
    pattern, so [m.group(n)] is never [None] there. *)
Lemma groups_read_are_bound line m :
  (search FAILED_RE line = Some m → is_Some (m !! 3%nat)) ∧
  (search INVALID_USER_RE line = Some m →
   is_Some (m !! 1%nat) ∧ is_Some (m !! 2%nat)) ∧
  (search ACCEPTED_RE line = Some m →
   is_Some (m !! 1%nat) ∧ is_Some (m !! 2%nat)) ∧
  (search PAM_FAILED_RE line = Some m → is_Some (m !! 1%nat)).
Proof.
  unfold search.
  split; [|split; [|split]]; intros Hm; [|split|split|];
    (eapply search_from_binds; [exact Hm|reflexivity]).
Qed.

(** ** Classification *)

Lemma parse_line_classify now line self :
  parse_line now line self =
    match classify line with
    | Some e => process now e self
    | None => (tt, self, [])
    end.
Proof.
  unfold parse_line, classify.
  destruct (search FAILED_RE line); [done|].
  destruct (search INVALID_USER_RE line); [done|].
  destruct (search ACCEPTED_RE line); [done|].
  destruct (search PAM_FAILED_RE line); done.
Qed.

(** C5. First match wins.  [parse_line] does what the event of the line
    asks, and that event is decided by the first of the four patterns, in
    the order failed password, invalid user, accepted login, PAM failure,
    that matches somewhere in the line: a match of an earlier pattern
    settles the event whatever the later ones would find.  A line that none
    of them matches gives no event, and [parse_line] returns with the
    object as it was and nothing written. *)
Theorem classify_first_match (line : string) (now : Z) (self : SSHEdr) :
  parse_line now line self =
    match classify line with
    | Some e => process now e self
    | None => (tt, self, [])
    end ∧
  (∀ m, search FAILED_RE line = Some m →
        classify line = Some (FailedLogin (group 3 m))) ∧
  (∀ m, search FAILED_RE line = None →
        search INVALID_USER_RE line = Some m →
        classify line = Some (InvalidUserAttempt (group 2 m) (group 1 m))) ∧
  (∀ m, search FAILED_RE line = None →
        search INVALID_USER_RE line = None →
        search ACCEPTED_RE line = Some m →
        classify line = Some (SuccessfulLogin (group 1 m) (group 2 m))) ∧
  (∀ m, search FAILED_RE line = None →
        search INVALID_USER_RE line = None →
        search ACCEPTED_RE line = None →
        search PAM_FAILED_RE line = Some m →
        classify line = Some (AuthFailure (group 1 m))) ∧
  (search FAILED_RE line = None →
   search INVALID_USER_RE line = None →
   search ACCEPTED_RE line = None →
   search PAM_FAILED_RE line = None →
   classify line = None ∧ parse_line now line self = (tt, self, [])).
Proof.
  split; [apply parse_line_classify|].
  rewrite parse_line_classify. unfold classify.
  repeat split; intros;
    repeat match goal with H : search _ _ = _ |- _ => rewrite H; clear H end;
    reflexivity.
Qed.

Lemma classify_first_match_witness :
  (is_Some (search INVALID_USER_RE line_both) ∧
   classify line_both = Some (FailedLogin "203.0.113.5")) ∧
  classify line_invalid = Some (InvalidUserAttempt "198.51.100.9" "admin") ∧
  classify line_accepted = Some (SuccessfulLogin "alice" "198.51.100.7") ∧
  classify line_pam = Some (AuthFailure "203.0.113.5") ∧
  (classify line_other = None ∧
   parse_line 0 line_other (__init__ 5 60 8 true false) =
     (tt, __init__ 5 60 8 true false, [])).
Proof.
  pose (self := __init__ 5 60 8 true false).
  repeat apply conj.
  - vm_compute. eauto.
  - destruct (search FAILED_RE line_both) as [m|] eqn:Hm;
      [|vm_compute in Hm; discriminate].
    rewrite (proj1 (proj2 (classify_first_match line_both 0 self)) m Hm).
    vm_compute in Hm. injection Hm as <-. vm_compute. reflexivity.
  - destruct (search INVALID_USER_RE line_invalid) as [m|] eqn:Hm;
      [|vm_compute in Hm; discriminate].
    rewrite (proj1 (proj2 (proj2 (classify_first_match line_invalid 0 self)))
               m eq_refl Hm).
    vm_compute in Hm. injection Hm as <-. vm_compute. reflexivity.
  - destruct (search ACCEPTED_RE line_accepted) as [m|] eqn:Hm;
      [|vm_compute in Hm; discriminate].
    rewrite (proj1 (proj2 (proj2 (proj2
               (classify_first_match line_accepted 0 self))))
               m eq_refl eq_refl Hm).
    vm_compute in Hm. injection Hm as <-. vm_compute. reflexivity.
  - destruct (search PAM_FAILED_RE line_pam) as [m|] eqn:Hm;
      [|vm_compute in Hm; discriminate].
    rewrite (proj1 (proj2 (proj2 (proj2 (proj2
               (classify_first_match line_pam 0 self)))))
               m eq_refl eq_refl eq_refl Hm).
    vm_compute in Hm. injection Hm as <-. vm_compute. reflexivity.
  - apply (proj2 (proj2 (proj2 (proj2 (proj2
             (classify_first_match line_other 0 self)))))
             eq_refl eq_refl eq_refl eq_refl).
  - apply (proj2 (proj2 (proj2 (proj2 (proj2
             (classify_first_match line_other 0 self)))))
             eq_refl eq_refl eq_refl eq_refl).
Defined.

(** ** Keys of the two maps *)

Lemma dom_defaultdict_item {V : Type} (dflt : V) k (d : gmap string V) :
  dom (defaultdict_item dflt k d).2 = dom d ∪ {[k]}.
Proof.
  unfold defaultdict_item. destruct (d !! k) eqn:Hk; cbn [snd].
  - assert (k ∈ dom d) by (apply elem_of_dom; eauto). set_solver.
  - rewrite dom_insert_L. set_solver.
Qed.

Lemma process_dom now e self :
  let self' := state_of (process now e self) in
  dom (failed self') = dom (failed self) ∪ failed_keys e ∧
  dom (invalid_user self') = dom (invalid_user self) ∪ invalid_user_keys e.
Proof.
  destruct e as [ip|ip user|user ip|ip]; cbn [process failed_keys invalid_user_keys].
  - destruct (record_failed_frame now ip self) as (_ & _ & _ & -> & _).
    rewrite record_failed_failed, dom_insert_L. set_solver.
  - destruct (record_invalid_user_frame now ip user self)
      as (_ & _ & _ & -> & _).
    rewrite record_invalid_user_invalid_user, dom_insert_L. set_solver.
  - destruct (record_success_frame now user ip self) as (_ & _ & _ & -> & _).
    rewrite record_success_eq. unfold state_of.
    cbn [fst snd success_state failed].
    rewrite dom_defaultdict_item. set_solver.
  - destruct (record_failed_frame now ip self) as (_ & _ & _ & -> & _).
    rewrite record_failed_failed, dom_insert_L. set_solver.
Qed.

(** C7.  Keys are only ever added.  After any sequence
    of events the keys of [failed] are those it had before together with
    the IP of every failed-password, PAM-failure and successful-login event
    of the sequence: a successful login binds the key by reading
    [self.failed[ip]].  The keys of [invalid_user] are those it had before
    together with the IP of every invalid-user event.  Nothing else binds a
    key and nothing removes one. *)
Theorem window_keys (self : SSHEdr) (log : list (Z * event)) :
  dom (failed (after log self)) =
    dom (failed self) ∪ ⋃ (map (λ x, failed_keys x.2) log) ∧
  dom (invalid_user (after log self)) =
    dom (invalid_user self) ∪ ⋃ (map (λ x, invalid_user_keys x.2) log).
Proof.
  revert self. induction log as [|[now e] log IH]; intros self.
  - rewrite after_nil. cbn. split; set_solver.
  - rewrite after_cons. destruct (IH (state_of (process now e self))) as [-> ->].
    destruct (process_dom now e self) as [-> ->].
    cbn [map union_list foldr snd]. split; set_solver.
Qed.

(** Failure events are not the only ones that create an entry: one
    successful login on a fresh object binds the IP in [failed], with an
    empty deque, and the sequence holds no failure or invalid-user event
    for that IP. *)
Lemma success_creates_failed_entry :
  let ip := "198.51.100.7"%string in
  let log := [(0, SuccessfulLogin "alice" ip)] in
  failed (after log (__init__ 5 60 8 true false)) !! ip = Some [] ∧
  existsb (λ x, is_failure_for ip x.2) log = false.
Proof. vm_compute. split; reflexivity. Qed.

(** ** The success history *)

Lemma length_last_n {A : Type} n (l : list A) :
  (length (last_n n l) ≤ n)%nat.
Proof. unfold last_n. rewrite length_drop. lia. Qed.

Lemma append_maxlen_last_n {A : Type} n (l : list A) x :
  append_maxlen n (last_n n l) x = last_n n (l ++ [x]).
Proof.
  unfold append_maxlen, last_n.
  rewrite !length_app, length_drop. cbn [length].
  destruct (decide (length l < n)%nat) as [Hlt|Hge].
  - replace (length l - n)%nat with 0%nat by lia.
    replace (length l + 1 - n)%nat with 0%nat by lia.
    rewrite !drop_0.
    destruct (Nat.ltb_spec n (length l - 0 + 1)); [lia|reflexivity].
  - destruct (Nat.ltb_spec n (length l - (length l - n) + 1)); [|lia].
    replace (length l + 1 - n)%nat with (S (length l - n)) by lia.
    destruct (drop (length l - n) l) as [|y t] eqn:Hd.
    + apply (f_equal length) in Hd. rewrite length_drop in Hd. cbn in Hd.
      assert (n = 0%nat) as -> by lia.
      rewrite drop_ge; [reflexivity|]. rewrite length_app. cbn. lia.
    + assert (n ≠ 0)%nat as Hn.
      { intros ->. rewrite Nat.sub_0_r, drop_all in Hd. discriminate. }
      cbn [app tail].
      rewrite drop_app_le by lia.
      replace (S (length l - n)) with (length l - n + 1)%nat by lia.
      rewrite <- (drop_drop l 1 (length l - n)), Hd.
      reflexivity.
Qed.

Lemma success_entries_snoc user log now e :
  success_entries user (log ++ [(now, e)]) =
    success_entries user log ++ success_entries user [(now, e)].
Proof. apply omap_app. Qed.

Lemma process_history now e user self :
  deque_at user (successful_logins (state_of (process now e self))) =
    match success_entries user [(now, e)] with
    | [] => deque_at user (successful_logins self)
    | x :: _ => append_maxlen 50 (deque_at user (successful_logins self)) x
    end.
Proof.
  destruct e as [ip|ip u|u ip|ip]; unfold success_entries;
    cbn [process omap list_omap snd fst].
  - destruct (record_failed_frame now ip self) as (_ & _ & _ & _ & -> & _).
    reflexivity.
  - destruct (record_invalid_user_frame now ip u self)
      as (_ & _ & _ & _ & -> & _).
    reflexivity.
  - rewrite record_success_eq. unfold state_of.
    cbn [fst snd success_state successful_logins].
    destruct (decide (u = user)) as [->|Hne].
    + rewrite deque_at_insert. reflexivity.
    + rewrite deque_at_insert_ne by done. reflexivity.
  - destruct (record_failed_frame now ip self) as (_ & _ & _ & _ & -> & _).
    reflexivity.
Qed.

Lemma history_closed_form user log ft ws it dr ex :
  deque_at user (successful_logins (after log (__init__ ft ws it dr ex))) =
    last_n 50 (success_entries user log).
Proof.
  induction log as [|[now e] log IH] using rev_ind; [reflexivity|].
  rewrite after_snoc, process_history, IH, success_entries_snoc.
  destruct (success_entries user [(now, e)]) as [|x t] eqn:Hx.
  - rewrite app_nil_r. reflexivity.
  - assert (t = []) as ->.
    { unfold success_entries in Hx. cbn in Hx.
      destruct e; try discriminate. destruct (decide _); [|discriminate].
      congruence. }
    apply append_maxlen_last_n.
Qed.

Lemma process_ignores_history now e h self :
  effects_of (process now e (set_successful_logins h self)) =
    effects_of (process now e self) ∧
  without_history (state_of (process now e (set_successful_logins h self))) =
    without_history (state_of (process now e self)).
Proof.
  destruct self as [ft w it f iu sl ku al dr ex].
  destruct e as [ip|ip u|u ip|ip]; cbn [process].
  - pose proof (record_failed_eq now ip) as H. cbv zeta in H. rewrite !H.
    cbn. destruct (len _ >=? ft); split; reflexivity.
  - pose proof (record_invalid_user_eq now ip u) as H. cbv zeta in H.
    rewrite !H. cbn. destruct (len _ >=? it); split; reflexivity.
  - rewrite !record_success_eq. split; reflexivity.
  - pose proof (record_failed_eq now ip) as H. cbv zeta in H. rewrite !H.
    cbn. destruct (len _ >=? ft); split; reflexivity.
Qed.

Lemma without_history_eq a b :
  without_history a = without_history b →
  a = set_successful_logins (successful_logins a) b.
Proof.
  destruct a, b. unfold without_history, set_successful_logins. cbn.
  intros [= -> -> -> -> -> -> -> -> ->]. reflexivity.
Qed.

Lemma out_ignores_history log : ∀ h self,
  out log (set_successful_logins h self) = out log self ∧
  without_history (after log (set_successful_logins h self)) =
    without_history (after log self).
Proof.
  induction log as [|[now e] log IH]; intros h self; [done|].
  rewrite !out_cons, !after_cons.
  destruct (process_ignores_history now e h self) as [-> Hw].
  apply without_history_eq in Hw. rewrite Hw.
  destruct (IH (successful_logins
                  (state_of (process now e (set_successful_logins h self))))
               (state_of (process now e self))) as [-> ->].
  done.
Qed.

(** C9. Bounded history.  After any sequence of events on a fresh object,
    the history of a user is the last fifty [(ip, time)] pairs of that
    user's successful logins, in arrival order: it never holds more than
    fifty, and from the fifty-first login on the oldest pair is gone.  The
    history is write-only: replacing the histories of an object by anything
    else changes neither what a sequence of events then writes out (alerts
    and block commands) nor any other part of the object it leaves. *)
Theorem bounded_history (ft ws it : Z) (dr ex : bool)
    (log : list (Z * event)) (user : string)
    (self : SSHEdr) (h : gmap string (list (string * Z))) :
  let history :=
    deque_at user (successful_logins (after log (__init__ ft ws it dr ex))) in
  history = last_n 50 (success_entries user log) ∧
  (length history ≤ 50)%nat ∧
  out log (set_successful_logins h self) = out log self ∧
  without_history (after log (set_successful_logins h self)) =
    without_history (after log self).
Proof.
  cbv zeta. rewrite history_closed_form.
  split; [reflexivity|]. split; [apply length_last_n|].
  apply out_ignores_history.
Qed.

(** Fifty-one logins of one user: the first pair has been dropped. *)
Example fifty_first_login_evicts_oldest :
  let log := map (λ t, (t, SuccessfulLogin "alice" "198.51.100.7"))
                 (seqZ 1 51) in
  deque_at "alice"
    (successful_logins (after log (__init__ 5 60 8 true false))) =
    map (λ t, ("198.51.100.7"%string, t)) (seqZ 2 50).
Proof. vm_compute. reflexivity. Qed.

(** ** Known addresses *)

Lemma count_of_app a l1 l2 :
  count_of a (l1 ++ l2) = (count_of a l1 + count_of a l2)%nat.
Proof. unfold count_of. rewrite filter_app, length_app. reflexivity. Qed.

Lemma count_of_other_kind a l :
  Forall (λ x, kind x ≠ kind a) l → count_of a l = 0%nat.
Proof.
  unfold count_of. induction 1 as [|x l Hx _ IH]; [reflexivity|].
  rewrite filter_cons_False; [exact IH|]. intros ->. apply Hx. reflexivity.
Qed.

Lemma process_known now e user self :
  known_at user (state_of (process now e self)) =
    known_at user self ∪
    match e with
    | SuccessfulLogin u ip => if decide (u = user) then {[ip]} else ∅
    | _ => ∅
    end.
Proof.
  unfold known_at.
  destruct e as [ip|ip u|u ip|ip]; cbn [process].
  - destruct (record_failed_frame now ip self) as (_ & _ & _ & _ & _ & -> & _).
    set_solver.
  - destruct (record_invalid_user_frame now ip u self)
      as (_ & _ & _ & _ & _ & -> & _).
    set_solver.
  - rewrite record_success_eq. unfold state_of.
    cbn [fst snd success_state known_user_ips].
    unfold defaultdict_item.
    destruct (decide (u = user)) as [->|Hne].
    + destruct (known_user_ips self !! user) as [known|] eqn:Hk;
        cbn [default snd]; destruct (decide (ip ∈ _)) as [Hin|Hin];
        rewrite ?lookup_insert_eq, ?Hk; cbn [default]; set_solver.
    + destruct (known_user_ips self !! u) as [known|] eqn:Hk;
        cbn [default snd]; destruct (decide (ip ∈ _)) as [Hin|Hin];
        rewrite ?lookup_insert_ne by done; set_solver.
  - destruct (record_failed_frame now ip self) as (_ & _ & _ & _ & _ & -> & _).
    set_solver.
Qed.

Lemma process_new_ip_count now e user ip self :
  count_of (login_from_new_ip user ip)
    (alerts_of (effects_of (process now e self))) =
    if is_login user ip e && negb (bool_decide (ip ∈ known_at user self))
    then 1%nat else 0%nat.
Proof.
  destruct e as [i|i u|u i|i]; cbn [process is_login andb].
  - rewrite record_failed_effects. cbv zeta.
    destruct (len _ >=? _); [|reflexivity].
    alert_head.
    rewrite alerts_of_gated. reflexivity.
  - rewrite record_invalid_user_effects. cbv zeta.
    destruct (len _ >=? _); [|reflexivity].
    alert_head.
    rewrite alerts_of_gated. reflexivity.
  - rewrite record_success_eq. unfold effects_of. cbn [snd].
    rewrite alerts_of_alerts. unfold success_alerts.
    rewrite count_of_app.
    rewrite (count_of_other_kind _ (if _ >=? _ then _ else _))
      by (destruct (_ >=? _); repeat constructor; discriminate).
    fold (known_at u self). cbn [Nat.add].
    destruct (decide (u = user ∧ i = ip)) as [[-> ->]|Hne].
    + rewrite bool_decide_eq_true_2 by done. cbn [andb].
      destruct (decide (ip ∈ known_at user self)) as [Hin|Hin].
      * rewrite bool_decide_eq_true_2 by done. reflexivity.
      * rewrite bool_decide_eq_false_2 by done.
        unfold count_of. rewrite filter_cons_True by done. reflexivity.
    + rewrite bool_decide_eq_false_2 by done. cbn [andb].
      destruct (decide (i ∈ known_at u self)); [reflexivity|].
      unfold count_of. rewrite filter_cons_False; [reflexivity|].
      intros [= -> ->]. apply Hne. done.
  - rewrite record_failed_effects. cbv zeta.
    destruct (len _ >=? _); [|reflexivity].
    alert_head.
    rewrite alerts_of_gated. reflexivity.
Qed.

Lemma new_ip_count_from user ip log self :
  count_of (login_from_new_ip user ip) (alerts_of (out log self)) =
    if bool_decide (ip ∈ known_at user self) then 0%nat
    else if existsb (λ x, is_login user ip x.2) log then 1%nat else 0%nat.
Proof.
  revert self. induction log as [|[now e] log IH]; intros self.
  - rewrite out_nil. destruct (bool_decide _); reflexivity.
  - rewrite out_cons, alerts_of_app, count_of_app, IH, process_new_ip_count.
    cbn [existsb snd].
    pose proof (process_known now e user self) as Hk.
    destruct (decide (ip ∈ known_at user self)) as [Hin|Hin].
    + rewrite (bool_decide_eq_true_2 (ip ∈ known_at user self)) by done.
      rewrite bool_decide_eq_true_2 by set_solver.
      rewrite andb_false_r. reflexivity.
    + rewrite (bool_decide_eq_false_2 (ip ∈ known_at user self)) by done.
      rewrite andb_true_r.
      destruct (is_login user ip e) eqn:He.
      * destruct e as [|?|u i|]; try discriminate. cbn in He.
        apply bool_decide_eq_true in He as [-> ->].
        rewrite decide_True in Hk by done.
        rewrite bool_decide_eq_true_2 by set_solver. reflexivity.
      * assert (ip ∉ known_at user (state_of (process now e self))) as Hn.
        { rewrite Hk. destruct e as [|?|u i|]; try set_solver.
          cbn in He. apply bool_decide_eq_false in He.
          destruct (decide (u = user)); set_solver. }
        rewrite bool_decide_eq_false_2 by done. reflexivity.
Qed.

(** C4. One [login_from_new_ip] per pair.  On a fresh object, over any
    sequence of events, the alert for [(user, ip)] is raised once if the
    sequence holds a successful login of that pair and not at all
    otherwise; and it is the first such login that raises it: nothing
    before raises it, that login does, and nothing after does, however many
    logins of the pair follow. *)
Theorem new_ip_once (ft ws it : Z) (dr ex : bool) (log : list (Z * event))
    (user ip : string) :
  let self := __init__ ft ws it dr ex in
  let a := login_from_new_ip user ip in
  count_of a (alerts_of (out log self)) =
    (if existsb (λ x, is_login user ip x.2) log then 1%nat else 0%nat) ∧
  ∀ pre now post,
    log = pre ++ (now, SuccessfulLogin user ip) :: post →
    existsb (λ x, is_login user ip x.2) pre = false →
    count_of a (alerts_of (out pre self)) = 0%nat ∧
    count_of a
      (alerts_of
         (effects_of (process now (SuccessfulLogin user ip) (after pre self))))
      = 1%nat ∧
    count_of a
      (alerts_of
         (out post (after (pre ++ [(now, SuccessfulLogin user ip)]) self)))
      = 0%nat.
Proof.
  cbv zeta.
  assert (∀ l, count_of (login_from_new_ip user ip)
                 (alerts_of (out l (__init__ ft ws it dr ex))) =
               if existsb (λ x, is_login user ip x.2) l
               then 1%nat else 0%nat) as Hcount.
  { intros l. rewrite new_ip_count_from.
    rewrite bool_decide_eq_false_2; [reflexivity|].
    unfold known_at. cbn. rewrite lookup_empty. cbn. set_solver. }
  split; [apply Hcount|].
  intros pre now post -> Hpre.
  pose proof (Hcount pre) as H1. rewrite Hpre in H1.
  pose proof (Hcount (pre ++ [(now, SuccessfulLogin user ip)])) as H2.
  pose proof (Hcount (pre ++ (now, SuccessfulLogin user ip) :: post)) as H3.
  rewrite out_snoc, alerts_of_app, count_of_app, H1 in H2.
  rewrite existsb_app in H2, H3. rewrite Hpre in H2, H3.
  cbn [existsb is_login snd orb] in H2, H3.
  rewrite bool_decide_eq_true_2 in H2, H3 by done.
  cbn [orb] in H2, H3.
  replace (pre ++ (now, SuccessfulLogin user ip) :: post)
    with ((pre ++ [(now, SuccessfulLogin user ip)]) ++ post) in H3
    by (rewrite <- app_assoc; reflexivity).
  rewrite out_app, alerts_of_app, count_of_app in H3.
  rewrite out_snoc, alerts_of_app, count_of_app, H1 in H3.
  repeat split; [exact H1|lia|lia].
Qed.

Lemma new_ip_once_witness :
  let self := __init__ 5 60 8 true false in
  let login := SuccessfulLogin "alice" "198.51.100.7" in
  let a := login_from_new_ip "alice" "198.51.100.7" in
  count_of a
    (alerts_of (out [(1, FailedLogin "198.51.100.7")] self)) = 0%nat ∧
  count_of a
    (alerts_of
       (effects_of
          (process 2 login (after [(1, FailedLogin "198.51.100.7")] self))))
    = 1%nat ∧
  count_of a
    (alerts_of
       (out [(3, login); (4, login)]
          (after ([(1, FailedLogin "198.51.100.7")] ++ [(2, login)]) self)))
    = 0%nat.
Proof.
  exact (proj2 (new_ip_once 5 60 8 true false
                  [(1, FailedLogin "198.51.100.7");
                   (2, SuccessfulLogin "alice" "198.51.100.7");
                   (3, SuccessfulLogin "alice" "198.51.100.7");
                   (4, SuccessfulLogin "alice" "198.51.100.7")]
                  "alice" "198.51.100.7")
           [(1, FailedLogin "198.51.100.7")] 2
           [(3, SuccessfulLogin "alice" "198.51.100.7");
            (4, SuccessfulLogin "alice" "198.51.100.7")]
           eq_refl eq_refl).
Defined.

(** ** Pruning *)

Lemma _prune_suffix dq cutoff : _prune dq cutoff `suffix_of` dq.
Proof.
  induction dq as [|t dq IH]; cbn [_prune]; [done|].
  destruct (t <? cutoff); [|done]. by apply suffix_cons_r.
Qed.

Lemma _prune_head dq cutoff t :
  head (_prune dq cutoff) = Some t → cutoff ≤ t.
Proof.
  induction dq as [|x dq IH]; cbn [_prune]; [done|].
  destruct (Z.ltb_spec x cutoff); [exact IH|].
  cbn. intros [= <-]. done.
Qed.

Lemma _prune_sorted dq cutoff :
  StronglySorted Z.le dq → _prune dq cutoff = filter (Z.le cutoff) dq.
Proof.
  induction 1 as [|t dq Hs IH Hall]; cbn [_prune]; [done|].
  destruct (Z.ltb_spec t cutoff) as [Hlt|Hge].
  - rewrite filter_cons_False by lia. exact IH.
  - rewrite filter_cons_True by done. f_equal.
    clear IH Hs. induction Hall as [|x dq Hx _ IH]; [done|].
    rewrite filter_cons_True by lia. f_equal. exact IH.
Qed.

Lemma filter_sorted (P : Z → Prop) `{!∀ x, Decision (P x)} (l : list Z) :
  StronglySorted Z.le l → StronglySorted Z.le (filter P l).
Proof.
  induction 1 as [|t l Hs IH Hall]; [constructor|].
  rewrite filter_cons. destruct (decide (P t)); [|exact IH].
  constructor; [exact IH|].
  apply Forall_forall. intros x Hx. apply list_elem_of_filter in Hx as [_ Hx].
  rewrite Forall_forall in Hall. auto.
Qed.

Lemma filter_all (P : Z → Prop) `{!∀ x, Decision (P x)} (l : list Z) :
  Forall P l → filter P l = l.
Proof.
  induction 1 as [|x l Hx _ IH]; [done|].
  rewrite filter_cons_True by done. f_equal. exact IH.
Qed.

Lemma Forall_filter_self (P : Z → Prop) `{!∀ x, Decision (P x)} (l : list Z) :
  Forall P (filter P l).
Proof.
  apply Forall_forall. intros x Hx.
  apply list_elem_of_filter in Hx as [Hx _]. exact Hx.
Qed.

(** ** The window as a function of the arrival times *)

Lemma times_of_snoc sel log now e :
  times_of sel (log ++ [(now, e)]) =
    times_of sel log ++ (if sel e then [now] else []).
Proof.
  unfold times_of. rewrite omap_app. cbn. destruct (sel e); reflexivity.
Qed.

Lemma times_of_elem sel log t : t ∈ times_of sel log → t ∈ log.*1.
Proof.
  unfold times_of. rewrite list_elem_of_omap. intros ([t' e] & Hin & Hsel).
  cbn in Hsel. destruct (sel e); [|discriminate]. injection Hsel as ->.
  apply list_elem_of_fmap. exists (t, e). done.
Qed.

Lemma times_of_sorted sel log :
  StronglySorted Z.le (log.*1) → StronglySorted Z.le (times_of sel log).
Proof.
  induction log as [|[t e] log IH]; [constructor|].
  cbn [fmap list_fmap fst]. rewrite StronglySorted_cons. intros [Hall Hs].
  unfold times_of. cbn [omap list_omap snd fst].
  destruct (sel e); [|by apply IH].
  constructor; [by apply IH|].
  apply Forall_forall. intros x Hx. rewrite Forall_forall in Hall.
  apply Hall. by eapply times_of_elem.
Qed.

Lemma window_of_sorted w ts :
  StronglySorted Z.le ts → StronglySorted Z.le (window_of w ts).
Proof.
  intros Hs. unfold window_of. destruct (last ts); [|constructor].
  by apply filter_sorted.
Qed.

Lemma window_of_elem w ts t : t ∈ window_of w ts → t ∈ ts.
Proof.
  unfold window_of. destruct (last ts); [|by rewrite elem_of_nil].
  rewrite list_elem_of_filter. tauto.
Qed.

Lemma window_snoc_sorted w ts now :
  StronglySorted Z.le (ts ++ [now]) →
  StronglySorted Z.le (window_of w ts ++ [now]).
Proof.
  rewrite !StronglySorted_app. intros (Hlt & Hs & Hnow).
  split; [|split; [by apply window_of_sorted|exact Hnow]].
  intros x y Hx. apply Hlt. by eapply window_of_elem.
Qed.

(** One more arrival: appending to the stored window and pruning gives the
    window of the longer list of times. *)
Lemma window_step w ts now :
  StronglySorted Z.le (ts ++ [now]) →
  _prune (window_of w ts ++ [now]) (now - w) =
    filter (Z.le (now - w)) (ts ++ [now]).
Proof.
  intros Hs. rewrite _prune_sorted by (by apply window_snoc_sorted).
  rewrite !filter_app. f_equal.
  unfold window_of. destruct (last ts) as [latest|] eqn:Hl.
  - apply list_filter_filter_l. intros x Hx.
    assert (latest ≤ now); [|lia].
    apply last_Some in Hl as [ts' ->].
    eapply StronglySorted_app_1_elem_of;
      [exact Hs| |by apply list_elem_of_singleton].
    apply elem_of_app. right. by apply list_elem_of_singleton.
  - apply last_None in Hl as ->. reflexivity.
Qed.

Lemma window_of_snoc w ts now :
  window_of w (ts ++ [now]) = filter (Z.le (now - w)) (ts ++ [now]).
Proof. unfold window_of. rewrite last_snoc. reflexivity. Qed.

Lemma process_failed_deque now e ip self :
  deque_at ip (failed (state_of (process now e self))) =
    if is_failed_for ip e
    then _prune (deque_at ip (failed self) ++ [now]) (now - window self)
    else deque_at ip (failed self).
Proof.
  destruct e as [i|i u|u i|i]; cbn [process is_failed_for].
  - rewrite record_failed_failed. unfold pruned.
    destruct (decide (i = ip)) as [->|Hne].
    + rewrite bool_decide_eq_true_2 by done. apply deque_at_insert.
    + rewrite bool_decide_eq_false_2 by done. by apply deque_at_insert_ne.
  - destruct (record_invalid_user_frame now i u self) as (_ & _ & _ & -> & _).
    reflexivity.
  - rewrite record_success_eq. unfold state_of.
    cbn [fst snd success_state failed]. apply deque_at_item.
  - rewrite record_failed_failed. unfold pruned.
    destruct (decide (i = ip)) as [->|Hne].
    + rewrite bool_decide_eq_true_2 by done. apply deque_at_insert.
    + rewrite bool_decide_eq_false_2 by done. by apply deque_at_insert_ne.
Qed.

Lemma process_invalid_deque now e ip self :
  deque_at ip (invalid_user (state_of (process now e self))) =
    if is_invalid_for ip e
    then _prune (deque_at ip (invalid_user self) ++ [now]) (now - window self)
    else deque_at ip (invalid_user self).
Proof.
  destruct e as [i|i u|u i|i]; cbn [process is_invalid_for].
  - destruct (record_failed_frame now i self) as (_ & _ & _ & -> & _).
    reflexivity.
  - rewrite record_invalid_user_invalid_user. unfold pruned.
    destruct (decide (i = ip)) as [->|Hne].
    + rewrite bool_decide_eq_true_2 by done. apply deque_at_insert.
    + rewrite bool_decide_eq_false_2 by done. by apply deque_at_insert_ne.
  - destruct (record_success_frame now u i self) as (_ & _ & _ & -> & _).
    reflexivity.
  - destruct (record_failed_frame now i self) as (_ & _ & _ & -> & _).
    reflexivity.
Qed.

Lemma after_window log self : window (after log self) = window self.
Proof.
  pose proof (after_config log self) as H. unfold config in H. congruence.
Qed.

Lemma sorted_prefix (log : list (Z * event)) x :
  StronglySorted Z.le ((log ++ [x]).*1) → StronglySorted Z.le (log.*1).
Proof. rewrite fmap_app. apply StronglySorted_app_1_l. Qed.

(** With arrival times that never decrease, the stored deque of an IP is
    the window of the times of its events. *)
Section fresh_object.
Context (ft ws it : Z) (dr ex : bool) (ip : string).

Local Abbreviation fresh := (__init__ ft ws it dr ex).

Lemma failed_closed_form log :
  StronglySorted Z.le (log.*1) →
  deque_at ip (failed (after log fresh)) =
    window_of (timedelta ws) (times_of (is_failed_for ip) log).
Proof.
  induction log as [|[now e] log IH] using rev_ind; intros Hs; [reflexivity|].
  rewrite after_snoc, process_failed_deque, after_window, times_of_snoc.
  rewrite (IH (sorted_prefix _ _ Hs)).
  apply (times_of_sorted (is_failed_for ip)) in Hs. rewrite times_of_snoc in Hs.
  destruct (is_failed_for ip e).
  - rewrite window_of_snoc. by apply window_step.
  - rewrite app_nil_r. reflexivity.
Qed.

Lemma invalid_closed_form log :
  StronglySorted Z.le (log.*1) →
  deque_at ip (invalid_user (after log fresh)) =
    window_of (timedelta ws) (times_of (is_invalid_for ip) log).
Proof.
  induction log as [|[now e] log IH] using rev_ind; intros Hs; [reflexivity|].
  rewrite after_snoc, process_invalid_deque, after_window, times_of_snoc.
  rewrite (IH (sorted_prefix _ _ Hs)).
  apply (times_of_sorted (is_invalid_for ip)) in Hs.
  rewrite times_of_snoc in Hs.
  destruct (is_invalid_for ip e).
  - rewrite window_of_snoc. by apply window_step.
  - rewrite app_nil_r. reflexivity.
Qed.

End fresh_object.

Lemma window_pruned_intro w ts now :
  StronglySorted Z.le (ts ++ [now]) →
  window_pruned (now - w) now (window_of w ts)
    (_prune (window_of w ts ++ [now]) (now - w)).
Proof.
  intros Hs. apply (window_snoc_sorted w) in Hs.
  unfold window_pruned. rewrite (_prune_sorted _ _ Hs).
  split; [reflexivity|]. split; [apply Forall_filter_self|].
  split; [by apply filter_sorted|].
  rewrite <- (_prune_sorted _ _ Hs). apply _prune_suffix.
Qed.



(** An entry exactly at the cutoff stays; one microsecond older goes. *)
Example prune_keeps_boundary :
  let ip := "203.0.113.5"%string in
  let self := __init__ 5 60 8 true false in
  deque_at ip
    (failed (after [(0, FailedLogin ip); (60000000, FailedLogin ip)] self)) =
    [0; 60000000] ∧
  deque_at ip
    (failed (after [(0, FailedLogin ip); (60000001, FailedLogin ip)] self)) =
    [60000001].
Proof. vm_compute. split; reflexivity. Qed.

(** A backward step of the wall clock is outside the theorem, and the
    reason is in [_prune]: it stops at the first entry that is recent
    enough.  Here the second reading is fifty seconds behind the first,
    and its entry outlives a cutoff that it does not meet. *)
Example prune_after_clock_step_back :
  let ip := "203.0.113.5"%string in
  deque_at ip
    (failed
       (after [(100000000, FailedLogin ip); (50000000, FailedLogin ip);
               (120000000, FailedLogin ip)]
          (__init__ 5 30 8 true false))) =
    [100000000; 50000000; 120000000].
Proof. vm_compute. reflexivity. Qed.

(** ** Brute-force alerts *)

Lemma total_seconds_timedelta ws : total_seconds (timedelta ws) = ws.
Proof.
  unfold total_seconds, timedelta. rewrite Z.mul_comm.
  apply Z.quot_mul. lia.
Qed.

Lemma bf_alerts_app ip l1 l2 :
  bf_alerts ip (l1 ++ l2) = bf_alerts ip l1 ++ bf_alerts ip l2.
Proof. apply filter_app. Qed.

Lemma bf_alerts_other_kind ip l :
  Forall (λ a, kind a ≠ "brute_force_suspected"%string) l →
  bf_alerts ip l = [].
Proof.
  unfold bf_alerts. induction 1 as [|a l Ha _ IH]; [reflexivity|].
  rewrite filter_cons_False; [exact IH|]. intros [Hk _]. contradiction.
Qed.

Lemma record_failed_alerts now i self :
  alerts_of (effects_of (record_failed now i self)) =
    let n := len (deque_at i (failed (state_of (record_failed now i self)))) in
    if n >=? failed_threshold self
    then [brute_force_suspected i n (total_seconds (window self))]
    else [].
Proof.
  rewrite record_failed_effects, record_failed_failed, deque_at_insert.
  cbv zeta. destruct (len _ >=? _); [|reflexivity].
  alert_head.
  rewrite alerts_of_gated. reflexivity.
Qed.

Lemma process_failed_alerts now e ip self :
  is_failed_for ip e = true →
  alerts_of (effects_of (process now e self)) =
    let n := len (deque_at ip (failed (state_of (process now e self)))) in
    if n >=? failed_threshold self
    then [brute_force_suspected ip n (total_seconds (window self))]
    else [].
Proof.
  destruct e as [i|i u|u i|i]; cbn [process is_failed_for]; try discriminate;
    intros ->%bool_decide_eq_true; apply record_failed_alerts.
Qed.

Lemma process_bf_alerts_other now e ip self :
  is_failed_for ip e = false →
  bf_alerts ip (alerts_of (effects_of (process now e self))) = [].
Proof.
  destruct e as [i|i u|u i|i]; cbn [process is_failed_for]; intros He.
  - apply bool_decide_eq_false in He.
    rewrite record_failed_alerts. cbv zeta.
    destruct (len _ >=? _); [|reflexivity].
    unfold bf_alerts. rewrite filter_cons_False; [reflexivity|].
    intros [_ H]. change (Some (VStr i) = Some (VStr ip)) in H. congruence.
  - rewrite record_invalid_user_effects. cbv zeta.
    destruct (len _ >=? _); [|reflexivity].
    alert_head.
    rewrite alerts_of_gated. reflexivity.
  - rewrite record_success_eq. unfold effects_of. cbn [snd].
    rewrite alerts_of_alerts. apply bf_alerts_other_kind.
    unfold success_alerts. apply Forall_app.
    split; [destruct (_ >=? _)|destruct (decide _)];
      repeat constructor; discriminate.
  - apply bool_decide_eq_false in He.
    rewrite record_failed_alerts. cbv zeta.
    destruct (len _ >=? _); [|reflexivity].
    unfold bf_alerts. rewrite filter_cons_False; [reflexivity|].
    intros [_ H]. change (Some (VStr i) = Some (VStr ip)) in H. congruence.
Qed.

Lemma after_failed_threshold log self :
  failed_threshold (after log self) = failed_threshold self.
Proof.
  pose proof (after_config log self) as H. unfold config in H. congruence.
Qed.

Section brute_force.
Context (ft ws it : Z) (dr ex : bool) (ip : string).

Local Abbreviation fresh := (__init__ ft ws it dr ex).

(** The count of one evaluation, as a function of the arrival times. *)
Lemma failed_step_alerts pre now e :
  StronglySorted Z.le ((pre ++ [(now, e)]).*1) →
  is_failed_for ip e = true →
  alerts_of (effects_of (process now e (after pre fresh))) =
    let n := len (filter (Z.le (now - timedelta ws))
                    (times_of (is_failed_for ip) (pre ++ [(now, e)]))) in
    if n >=? ft then [brute_force_suspected ip n ws] else [].
Proof.
  intros Hs He. rewrite (process_failed_alerts _ _ ip) by done.
  rewrite process_failed_deque, He, after_window, after_failed_threshold.
  rewrite (failed_closed_form _ _ _ _ _ ip pre (sorted_prefix _ _ Hs)).
  cbn [window failed_threshold __init__]. rewrite total_seconds_timedelta.
  apply (times_of_sorted (is_failed_for ip)) in Hs.
  rewrite times_of_snoc, He in *. rewrite window_step by done.
  reflexivity.
Qed.

Lemma filter_seq_below (th : Z) (m : nat) :
  Z.of_nat m < th → filter (λ k, th ≤ Z.of_nat k) (seq 1 m) = [].
Proof.
  induction m as [|m IH]; intros Hm; [reflexivity|].
  rewrite seq_S, filter_app, IH by lia.
  cbn [app]. rewrite filter_cons_False by lia. reflexivity.
Qed.

Lemma filter_seq_at (th : Z) (m : nat) :
  Z.of_nat m = th → 1 ≤ th →
  filter (λ k, th ≤ Z.of_nat k) (seq 1 m) = [m].
Proof.
  intros Hm Hth. destruct m as [|m]; [cbn in Hm; lia|].
  rewrite seq_S, filter_app, filter_seq_below by lia.
  cbn [app]. rewrite filter_cons_True by lia. reflexivity.
Qed.

Lemma sorted_snoc_bound (pre : list (Z * event)) now e :
  StronglySorted Z.le ((pre ++ [(now, e)]).*1) →
  Forall (λ t, t ≤ now) (pre.*1).
Proof.
  rewrite fmap_app, StronglySorted_app. intros (H & _ & _).
  apply Forall_forall. intros t Ht. apply H; [exact Ht|].
  cbn. by apply list_elem_of_singleton.
Qed.

(** While every failure of an IP lies within the window of the latest
    clock reading, the k-th failure is counted as k: the alerts for the IP
    are those of the counts that reach the threshold, in order. *)
Lemma brute_force_within log hi :
  StronglySorted Z.le (log.*1) →
  Forall (λ t, t ≤ hi) (log.*1) →
  Forall (Z.le (hi - timedelta ws)) (times_of (is_failed_for ip) log) →
  bf_alerts ip (alerts_of (out log fresh)) =
    map (λ k, brute_force_suspected ip (Z.of_nat k) ws)
      (filter (λ k, ft ≤ Z.of_nat k)
         (seq 1 (length (times_of (is_failed_for ip) log)))).
Proof.
  induction log as [|[now e] log IH] using rev_ind; intros Hs Hhi Hw;
    [reflexivity|].
  rewrite out_snoc, alerts_of_app, bf_alerts_app.
  rewrite times_of_snoc in *.
  apply Forall_app in Hw as [Hw Hnow].
  assert (now ≤ hi) as Hle.
  { rewrite fmap_app in Hhi. apply Forall_app in Hhi as [_ Hhi].
    by inversion Hhi. }
  rewrite IH; [|by eapply sorted_prefix| |exact Hw]; cycle 1.
  { rewrite fmap_app in Hhi. by apply Forall_app in Hhi as [? _]. }
  destruct (is_failed_for ip e) eqn:He.
  - rewrite failed_step_alerts by done.
    cbv zeta. rewrite times_of_snoc, He.
    rewrite filter_all; cycle 1.
    { apply Forall_app. split.
      - eapply Forall_impl; [exact Hw|]. intros t Ht. cbn in Ht. lia.
      - repeat constructor. pose proof (sorted_snoc_bound _ _ _ Hs) as Hb.
        inversion Hnow; subst. lia. }
    unfold len. rewrite length_app, Nat.add_comm. cbn [length Nat.add].
    rewrite seq_S, filter_app, map_app. f_equal.
    rewrite filter_cons, filter_nil. cbn [Nat.add].
    rewrite Z.geb_leb.
    destruct (Z.leb_spec ft (Z.of_nat (S (length (times_of (is_failed_for ip) log)))))
      as [Hge|Hlt].
    + rewrite decide_True by done.
      unfold bf_alerts. rewrite filter_cons_True by (split; reflexivity).
      reflexivity.
    + rewrite decide_False by lia. reflexivity.
  - rewrite process_bf_alerts_other by done.
    rewrite !app_nil_r. reflexivity.
Qed.

End brute_force.



(** A failure older than the window is not counted: the third failure
    comes sixty-one seconds after the first and is counted as the second. *)
Example old_failure_not_counted :
  let ip := "203.0.113.5"%string in
  let self := __init__ 2 60 8 true false in
  alerts_of
    (out [(0, FailedLogin ip); (61000000, FailedLogin ip);
          (61000001, FailedLogin ip)] self) =
    [brute_force_suspected ip 2 60].
Proof. vm_compute. reflexivity. Qed.

(** * Further properties of the program *)

(** ** The alert log *)

Lemma process_alerts now e self :
  alerts (state_of (process now e self)) =
    alerts self ++ alerts_of (effects_of (process now e self)).
Proof.
  destruct e as [ip|ip u|u ip|ip]; cbn [process].
  - pose proof (record_failed_eq now ip self) as H. cbv zeta in H. rewrite H.
    destruct (len _ >=? _); unfold state_of, effects_of; cbn [fst snd];
      [|by rewrite app_nil_r].
    alert_head. rewrite alerts_of_gated. reflexivity.
  - pose proof (record_invalid_user_eq now ip u self) as H. cbv zeta in H.
    rewrite H.
    destruct (len _ >=? _); unfold state_of, effects_of; cbn [fst snd];
      [|by rewrite app_nil_r].
    alert_head. rewrite alerts_of_gated. reflexivity.
  - rewrite record_success_eq. unfold state_of, effects_of. cbn [fst snd].
    rewrite alerts_of_alerts. reflexivity.
  - pose proof (record_failed_eq now ip self) as H. cbv zeta in H. rewrite H.
    destruct (len _ >=? _); unfold state_of, effects_of; cbn [fst snd];
      [|by rewrite app_nil_r].
    alert_head. rewrite alerts_of_gated. reflexivity.
Qed.

(** X5. The in-memory log [self.alerts], which the script dumps when it is
    stopped, is append-only and complete: after any sequence of events it
    is what it was before followed by exactly the alerts raised meanwhile,
    in the order they were raised. *)
Theorem alerts_log_complete (self : SSHEdr) (log : list (Z * event)) :
  alerts (after log self) = alerts self ++ alerts_of (out log self).
Proof.
  revert self. induction log as [|[now e] log IH]; intros self.
  - rewrite after_nil, out_nil. by rewrite app_nil_r.
  - rewrite after_cons, out_cons, alerts_of_app, IH, process_alerts.
    by rewrite app_assoc.
Qed.

(** ** Commands that are run *)

Lemma execs_app l1 l2 : execs (l1 ++ l2) = execs l1 ++ execs l2.
Proof. apply omap_app. Qed.

Lemma execs_alerts (l : list alert) : execs (map EAlert l) = [].
Proof. induction l; [done|]. cbn. exact IHl. Qed.

Lemma process_execs now e self :
  execs (effects_of (process now e self)) =
    if execute_block self
    then block_requests (effects_of (process now e self)) else [].
Proof.
  assert (∀ ip, execs (gated_block ip self) =
                if execute_block self
                then block_requests (gated_block ip self) else []) as Hg.
  { intros ip. unfold gated_block, block_effects.
    destruct (dry_run self), (execute_block self); reflexivity. }
  destruct e as [ip|ip u|u ip|ip]; cbn [process].
  - rewrite record_failed_effects. cbv zeta.
    destruct (len _ >=? _); [|by destruct (execute_block self)].
    rewrite block_requests_alert. apply Hg.
  - rewrite record_invalid_user_effects. cbv zeta.
    destruct (len _ >=? _); [|by destruct (execute_block self)].
    rewrite block_requests_alert. apply Hg.
  - rewrite record_success_eq. unfold effects_of. cbn [snd].
    rewrite execs_alerts, block_requests_alerts.
    by destruct (execute_block self).
  - rewrite record_failed_effects. cbv zeta.
    destruct (len _ >=? _); [|by destruct (execute_block self)].
    rewrite block_requests_alert. apply Hg.
Qed.

Lemma after_execute_block log self :
  execute_block (after log self) = execute_block self.
Proof.
  pose proof (after_config log self) as H. unfold config in H. congruence.
Qed.

Lemma out_execs log self :
  execs (out log self) =
    if execute_block self then block_requests (out log self) else [].
Proof.
  revert self. induction log as [|[now e] log IH]; intros self.
  - rewrite out_nil. by destruct (execute_block self).
  - rewrite out_cons, execs_app, block_requests_app, IH, process_execs.
    pose proof (process_config now e self) as H. unfold config in H.
    replace (execute_block (state_of (process now e self)))
      with (execute_block self) by congruence.
    by destruct (execute_block self).
Qed.

(** X6. What is run is what is printed, and only with both flags.  For the
    object that the script builds from its arguments, over any sequence of
    events: without [--block] no command is printed or run, whatever
    [--execute-block] says; with [--block] alone the commands are printed
    and none is run; with both, the commands run are exactly the commands
    printed, in the same order. *)
Theorem commands_run_only_with_both_flags (args : Args.t)
    (log : list (Z * event)) :
  let effs := out log (edr_of_args args) in
  block_requests effs =
    (if Args.block args then block_requests effs else []) ∧
  execs effs =
    (if Args.block args && Args.execute_block args
     then block_requests effs else []).
Proof.
  cbv zeta. rewrite out_execs. unfold edr_of_args.
  cbn [execute_block __init__].
  destruct (Args.block args) eqn:Hb; cbn [negb andb].
  - split; [reflexivity|]. by destruct (Args.execute_block args).
  - rewrite dry_run_no_block by reflexivity.
    split; [reflexivity|]. by destruct (Args.execute_block args).
Qed.

(** ** Known addresses over a sequence *)

(** X11. The set of known addresses of a user only grows, and by exactly
    the addresses of that user's successful logins: after any sequence of
    events it is the set before together with the address of every
    successful login of the user in the sequence.  Logins of other users
    and failures add nothing to it. *)
Theorem known_ips_accumulate (self : SSHEdr) (log : list (Z * event))
    (user : string) :
  known_at user (after log self) = known_at user self ∪ login_ips user log.
Proof.
  revert self. induction log as [|[now e] log IH]; intros self.
  - rewrite after_nil. unfold login_ips. cbn. set_solver.
  - rewrite after_cons, IH, process_known. unfold login_ips.
    cbn [map union_list foldr snd]. set_solver.
Qed.

(** ** Pruning under any clock *)

Lemma _prune_split dq cutoff :
  ∃ dropped, dq = dropped ++ _prune dq cutoff ∧
             Forall (λ t, t < cutoff) dropped.
Proof.
  induction dq as [|t dq (dropped & Hd & Hall)]; cbn [_prune].
  - exists []. split; [reflexivity|constructor].
  - destruct (Z.ltb_spec t cutoff) as [Hlt|Hge].
    + exists (t :: dropped). split; [by rewrite Hd at 1|by constructor].
    + exists []. split; [reflexivity|constructor].
Qed.

Lemma filter_none (P : Z → Prop) `{!∀ x, Decision (P x)} (l : list Z) :
  Forall (λ x, ¬ P x) l → filter P l = [].
Proof.
  induction 1 as [|x l Hx _ IH]; [done|].
  rewrite filter_cons_False by done. exact IH.
Qed.

Lemma _prune_keeps_window dq cutoff :
  filter (Z.le cutoff) (_prune dq cutoff) = filter (Z.le cutoff) dq.
Proof.
  destruct (_prune_split dq cutoff) as (dropped & Hd & Hall).
  transitivity (filter (Z.le cutoff) (dropped ++ _prune dq cutoff));
    [|by rewrite <- Hd].
  rewrite filter_app, (filter_none _ dropped); [reflexivity|].
  eapply Forall_impl; [exact Hall|]. intros t Ht. cbn in Ht. lia.
Qed.

(** X8. Pruning never loses an entry that is still in the window, whatever
    the clock did.  [_prune] removes a leading run of entries that are all
    older than the cutoff and nothing else; so after any failure event, in
    any state, the entries of the old deque and the new arrival time that
    are [>= now - window] are all still stored, in order, and the count
    compared with the threshold is never below their number. *)
Theorem prune_never_undercounts (self : SSHEdr) (now : Z) (e : event)
    (ip : string) :
  is_failed_for ip e = true →
  let old := deque_at ip (failed self) in
  let new := deque_at ip (failed (state_of (process now e self))) in
  let cutoff := now - window self in
  (∃ dropped, old ++ [now] = dropped ++ new ∧
              Forall (λ t, t < cutoff) dropped) ∧
  filter (Z.le cutoff) new = filter (Z.le cutoff) (old ++ [now]) ∧
  (length (filter (Z.le cutoff) (old ++ [now])) ≤ length new)%nat.
Proof.
  intros He. cbv zeta. rewrite process_failed_deque, He.
  split; [apply _prune_split|].
  split; [apply _prune_keeps_window|].
  rewrite <- (_prune_keeps_window (_ ++ [now])). apply length_filter.
Qed.

Lemma prune_never_undercounts_witness :
  let ip := "203.0.113.5"%string in
  let self :=
    after [(100000000, FailedLogin ip); (50000000, FailedLogin ip)]
      (__init__ 5 30 8 true false) in
  let new :=
    deque_at ip
      (failed (state_of (process 120000000 (AuthFailure ip) self))) in
  filter (Z.le (120000000 - window self)) new =
    filter (Z.le (120000000 - window self))
      (deque_at ip (failed self) ++ [120000000]).
Proof.
  exact (proj1 (proj2 (prune_never_undercounts
                         (after [(100000000, FailedLogin "203.0.113.5");
                                 (50000000, FailedLogin "203.0.113.5")]
                            (__init__ 5 30 8 true false))
                         120000000 (AuthFailure "203.0.113.5")
                         "203.0.113.5" eq_refl))).
Defined.

Lemma _prune_last dq cutoff x :
  cutoff ≤ x → last (_prune (dq ++ [x]) cutoff) = Some x.
Proof.
  intros Hx. induction dq as [|t dq IH]; cbn [_prune app].
  - destruct (Z.ltb_spec x cutoff); [lia|reflexivity].
  - destruct (Z.ltb_spec t cutoff); [exact IH|].
    change (t :: dq ++ [x]) with ((t :: dq) ++ [x]). apply last_snoc.
Qed.



(** ** One IP at a time *)

Lemma process_agree_same ip now e s1 s2 :
  agree_on ip s1 s2 → is_failed_for ip e = true →
  alerts_of (effects_of (process now e s1)) =
    alerts_of (effects_of (process now e s2)) ∧
  agree_on ip (state_of (process now e s1)) (state_of (process now e s2)).
Proof.
  intros (Hft & Hw & Hdq) He.
  assert (deque_at ip (failed (state_of (process now e s1))) =
          deque_at ip (failed (state_of (process now e s2)))) as Hnew.
  { rewrite !process_failed_deque, He, Hw, Hdq. reflexivity. }
  split.
  - rewrite !(process_failed_alerts _ _ ip) by done. cbv zeta.
    rewrite Hnew, Hft, Hw. reflexivity.
  - pose proof (process_config now e s1) as H1.
    pose proof (process_config now e s2) as H2.
    unfold config in H1, H2. unfold agree_on.
    repeat split; [congruence|congruence|exact Hnew].
Qed.

Lemma process_agree_skip ip now e s :
  is_failed_for ip e = false → agree_on ip (state_of (process now e s)) s.
Proof.
  intros He. pose proof (process_config now e s) as H. unfold config in H.
  unfold agree_on. rewrite process_failed_deque, He.
  repeat split; congruence.
Qed.

Lemma agree_on_trans ip s1 s2 s3 :
  agree_on ip s1 s2 → agree_on ip s2 s3 → agree_on ip s1 s3.
Proof. unfold agree_on. intros (? & ? & ?) (? & ? & ?). repeat split; congruence. Qed.

Lemma bf_alerts_agree ip log : ∀ s1 s2,
  agree_on ip s1 s2 →
  bf_alerts ip (alerts_of (out log s1)) =
    bf_alerts ip
      (alerts_of (out (filter (λ x, is_failed_for ip x.2 = true) log) s2)).
Proof.
  induction log as [|[now e] log IH]; intros s1 s2 Hag; [reflexivity|].
  rewrite out_cons, alerts_of_app, bf_alerts_app.
  destruct (is_failed_for ip e) eqn:He.
  - rewrite filter_cons_True by done.
    rewrite out_cons, alerts_of_app, bf_alerts_app.
    destruct (process_agree_same ip now e s1 s2 Hag He) as [-> Hag'].
    f_equal. by apply IH.
  - rewrite filter_cons_False by (cbn; congruence).
    rewrite process_bf_alerts_other by done. cbn [app].
    apply IH. eapply agree_on_trans; [|exact Hag].
    by apply process_agree_skip.
Qed.

(** X7. The brute-force rule treats each IP on its own.  Over any sequence
    of events, from any state and under any clock, the
    [brute_force_suspected] alerts about [ip] are the ones the object
    would raise if it were given only the failed-password and PAM-failure
    events of [ip], at the same arrival times: events of other IPs,
    invalid-user events and logins neither add, remove nor change one. *)
Theorem brute_force_per_ip (self : SSHEdr) (log : list (Z * event))
    (ip : string) :
  bf_alerts ip (alerts_of (out log self)) =
    bf_alerts ip
      (alerts_of (out (filter (λ x, is_failed_for ip x.2 = true) log) self)).
Proof. apply bf_alerts_agree. unfold agree_on. auto. Qed.

(** ** A negative window *)

Lemma of_kind_app k l1 l2 : of_kind k (l1 ++ l2) = of_kind k l1 ++ of_kind k l2.
Proof. apply filter_app. Qed.

Lemma process_all_empty now e self :
  window self < 0 → all_empty self →
  all_empty (state_of (process now e self)) ∧
  (1 ≤ failed_threshold self →
   of_kind "brute_force_suspected"
     (alerts_of (effects_of (process now e self))) = []) ∧
  (1 ≤ invalid_threshold self →
   of_kind "invalid_user_burst"
     (alerts_of (effects_of (process now e self))) = []).
Proof.
  intros Hw [Hf Hi].
  assert (∀ dq, dq = [] → _prune (dq ++ [now]) (now - window self) = [])
    as Hp.
  { intros dq ->. cbn. destruct (Z.ltb_spec now (now - window self)); [done|lia]. }
  split; [split; intros ip|].
  - rewrite process_failed_deque. destruct (is_failed_for ip e); auto.
  - rewrite process_invalid_deque. destruct (is_invalid_for ip e); auto.
  - destruct e as [i|i u|u i|i]; cbn [process].
    + rewrite record_failed_alerts. cbv zeta.
      rewrite record_failed_failed, deque_at_insert. unfold pruned.
      rewrite (Hp _ (Hf i)). change (len (@nil Z)) with 0.
      split; intros Ht.
      * rewrite Z.geb_leb. destruct (Z.leb_spec (failed_threshold self) 0); [lia|reflexivity].
      * destruct (0 >=? failed_threshold self); reflexivity.
    + rewrite record_invalid_user_effects. cbv zeta. unfold pruned.
      rewrite (Hp _ (Hi i)). change (len (@nil Z)) with 0.
      split; intros Ht.
      * destruct (0 >=? invalid_threshold self); [|reflexivity].
        alert_head. rewrite alerts_of_gated. reflexivity.
      * rewrite Z.geb_leb. destruct (Z.leb_spec (invalid_threshold self) 0); [lia|reflexivity].
    + rewrite record_success_eq. unfold effects_of. cbn [snd].
      rewrite alerts_of_alerts. unfold success_alerts.
      split; intros _; destruct (_ >=? _), (decide _); reflexivity.
    + rewrite record_failed_alerts. cbv zeta.
      rewrite record_failed_failed, deque_at_insert. unfold pruned.
      rewrite (Hp _ (Hf i)). change (len (@nil Z)) with 0.
      split; intros Ht.
      * rewrite Z.geb_leb. destruct (Z.leb_spec (failed_threshold self) 0); [lia|reflexivity].
      * destruct (0 >=? failed_threshold self); reflexivity.
Qed.

Lemma out_all_empty log : ∀ self,
  window self < 0 → all_empty self →
  all_empty (after log self) ∧
  (1 ≤ failed_threshold self →
   of_kind "brute_force_suspected" (alerts_of (out log self)) = []) ∧
  (1 ≤ invalid_threshold self →
   of_kind "invalid_user_burst" (alerts_of (out log self)) = []).
Proof.
  induction log as [|[now e] log IH]; intros self Hw He; [done|].
  destruct (process_all_empty now e self Hw He) as (He' & Hb & Hi).
  pose proof (process_config now e self) as Hc. unfold config in Hc.
  injection Hc as Hc1 Hc2 Hc3 _ _.
  destruct (IH (state_of (process now e self))) as (He'' & Hb' & Hi');
    [congruence|exact He'|].
  rewrite after_cons, out_cons, alerts_of_app, !of_kind_app.
  split; [exact He''|].
  split; intros Ht.
  - rewrite Hb by done. apply Hb'. congruence.
  - rewrite Hi by done. apply Hi'. congruence.
Qed.



(** ** Logins from an IP without failures *)

Lemma process_no_success_alert ip now e self :
  deque_at ip (failed self) = [] → is_failed_for ip e = false →
  filter (is_alert_for "successful_after_failures" ip)
    (alerts_of (effects_of (process now e self))) = [] ∧
  deque_at ip (failed (state_of (process now e self))) = [].
Proof.
  intros Hdq He. split; [|by rewrite process_failed_deque, He].
  destruct e as [i|i u|u i|i]; cbn [process].
  - rewrite record_failed_alerts. cbv zeta.
    destruct (len _ >=? _); reflexivity.
  - rewrite record_invalid_user_effects. cbv zeta.
    destruct (len _ >=? _); [|reflexivity].
    alert_head. rewrite alerts_of_gated. reflexivity.
  - rewrite record_success_eq. unfold effects_of. cbn [snd].
    rewrite alerts_of_alerts. unfold success_alerts.
    rewrite filter_app.
    assert (filter (is_alert_for "successful_after_failures" ip)
              (if decide (i ∈ default ∅ (known_user_ips self !! u))
               then [] else [login_from_new_ip u i]) = []) as ->
      by (destruct (decide _); reflexivity).
    rewrite app_nil_r.
    destruct (decide (i = ip)) as [->|Hne].
    + rewrite Hdq. change (len (@nil Z)) with 0.
      rewrite Z.geb_leb.
      destruct (Z.leb_spec (Z.max 1 (failed_threshold self / 2)) 0);
        [lia|reflexivity].
    + destruct (len _ >=? _); [|reflexivity].
      rewrite filter_cons_False; [reflexivity|].
      intros [_ H]. change (Some (VStr i) = Some (VStr ip)) in H. congruence.
  - rewrite record_failed_alerts. cbv zeta.
    destruct (len _ >=? _); reflexivity.
Qed.

(** X10. No failures, no [successful_after_failures].  If the failure
    deque of [ip] is empty or absent (as on a fresh object) and a sequence
    of events holds no failed-password or PAM-failure event for [ip], then
    no login in it raises [successful_after_failures] about [ip], for
    every value of [failed_threshold], zero and negative ones included:
    the floor of [max(1, failed_threshold // 2)] is one stored failure. *)
Theorem no_failures_no_success_alert (self : SSHEdr)
    (log : list (Z * event)) (ip : string) :
  deque_at ip (failed self) = [] →
  existsb (λ x, is_failed_for ip x.2) log = false →
  filter (is_alert_for "successful_after_failures" ip)
    (alerts_of (out log self)) = [].
Proof.
  revert self. induction log as [|[now e] log IH]; intros self Hdq Hex;
    [reflexivity|].
  cbn [existsb snd] in Hex. apply orb_false_iff in Hex as [He Hex].
  destruct (process_no_success_alert ip now e self Hdq He) as [Ha Hdq'].
  rewrite out_cons, alerts_of_app, filter_app, Ha. cbn [app].
  by apply IH.
Qed.

Lemma no_failures_no_success_alert_witness :
  let ip := "198.51.100.7"%string in
  filter (is_alert_for "successful_after_failures" ip)
    (alerts_of
       (out [(0, FailedLogin "203.0.113.5"); (1, SuccessfulLogin "alice" ip);
             (2, SuccessfulLogin "bob" ip)]
          (__init__ 0 60 8 true false))) = [].
Proof.
  exact (no_failures_no_success_alert (__init__ 0 60 8 true false)
           [(0, FailedLogin "203.0.113.5");
            (1, SuccessfulLogin "alice" "198.51.100.7");
            (2, SuccessfulLogin "bob" "198.51.100.7")]
           "198.51.100.7" eq_refl eq_refl).
Defined.

(** ** The invalid-user window *)



(** ** Text after the address *)

Lemma strip_prefix_Some l s s' : strip_prefix l s = Some s' → s = l ++ s'.
Proof.
  revert s. induction l as [|a l IH]; intros s; cbn [strip_prefix app].
  - congruence.
  - destruct s as [|b s]; [congruence|].
    destruct (Ascii.eqb_spec a b) as [->|]; [|congruence].
    intros H%IH. congruence.
Qed.

Lemma many_fails {R : Type} c u (K : list ascii → option R) :
  (∀ w, w `suffix_of` u → K w = None) → many c u K = None.
Proof.
  induction u as [|a u IH]; intros HK; cbn [many]; [by apply HK|].
  rewrite IH by (intros w Hw; apply HK; by apply suffix_cons_r).
  destruct (in_class c a); by apply HK.
Qed.

Lemma many_falls_back {R : Type} c u (K : list ascii → option R) :
  (∀ w, w ≠ u → w `suffix_of` u → K w = None) → many c u K = K u.
Proof.
  induction u as [|a u IH]; intros HK; cbn [many]; [reflexivity|].
  destruct (in_class c a); [|reflexivity].
  assert (u ≠ a :: u) as Hne.
  { intros H. apply (f_equal length) in H. cbn in H. lia. }
  rewrite IH.
  - rewrite HK; [reflexivity|exact Hne|by apply suffix_cons_r].
  - intros w Hw Hs. apply HK; [|by apply suffix_cons_r].
    intros ->. apply suffix_length in Hs. cbn in Hs. lia.
Qed.

Section tail.
Context (t : list ascii) (Ht : Forall (λ a, plain a = true) t).

(** [u] starts strictly inside the tail. *)
Definition in_tail (u : list ascii) : Prop := ∃ v, v ≠ [] ∧ t = v ++ u.

Lemma in_tail_suffix u w : in_tail u → w `suffix_of` u → in_tail w.
Proof.
  intros (v & Hv & Et) [v' Eu]. exists (v ++ v'). split.
  - destruct v; [done|discriminate].
  - rewrite Et, Eu. apply app_assoc.
Qed.

Lemma in_tail_head u :
  in_tail u → u = [] ∨ ∃ a u', u = a :: u' ∧ plain a = true.
Proof.
  intros (v & _ & Hv). destruct u as [|a u']; [by left|right].
  exists a, u'. split; [reflexivity|].
  rewrite Hv in Ht. apply Forall_app in Ht as [_ Hu]. by inversion Hu.
Qed.

Lemma suffix_in_tail w : w ≠ t → w `suffix_of` t → in_tail w.
Proof.
  intros Hne [v Hv]. exists v. split; [|exact Hv].
  intros ->. apply Hne. by rewrite Hv.
Qed.

Lemma rmatch_stuck r : ∀ u g k,
  tail_stuck r →
  u = [] ∨ (∃ a u', u = a :: u' ∧ plain a = true) →
  rmatch r u g k = None.
Proof.
  induction r as [l|c|c|r1 IH1 r2 IH2|r1 IH1 r2 IH2|r1 IH1|m r1 IH1];
    intros u g k Hr Hu; cbn [rmatch tail_stuck] in *; try done.
  - destruct (list_ascii_of_string l) as [|a l']; [done|].
    destruct Hu as [->|(b & u' & -> & Hb)]; [done|]. cbn [strip_prefix].
    destruct (Ascii.eqb_spec a b) as [->|]; [congruence|done].
  - destruct Hu as [->|(b & u' & -> & Hb)]; [done|].
    by rewrite (Hr b Hb).
  - by apply IH1.
  - destruct Hr as [H1 H2]. rewrite IH1 by done. by apply IH2.
  - by apply IH1.
Qed.

Lemma rmatch_fails_in_tail r : ∀ u g k,
  (∀ w g', in_tail w → k w g' = None) → in_tail u → rmatch r u g k = None.
Proof.
  induction r as [l|c|c|r1 IH1 r2 IH2|r1 IH1 r2 IH2|r1 IH1|m r1 IH1];
    intros u g k Hk Hu; cbn [rmatch].
  - destruct (strip_prefix _ u) as [u'|] eqn:Hp; [|done].
    apply strip_prefix_Some in Hp. apply Hk.
    eapply in_tail_suffix; [exact Hu|]. by eexists.
  - destruct u as [|a u]; [done|]. destruct (in_class c a); [|done].
    apply many_fails. intros w Hw. apply Hk.
    eapply in_tail_suffix; [exact Hu|]. by apply suffix_cons_r.
  - apply many_fails. intros w Hw. apply Hk.
    by eapply in_tail_suffix.
  - apply IH1; [|done]. intros w g' Hw. by apply IH2.
  - rewrite IH1 by done. by apply IH2.
  - rewrite IH1 by done. by apply Hk.
  - apply IH1; [|done]. intros w g' Hw. by apply Hk.
Qed.

Lemma strip_prefix_tail l : ∀ s,
  match strip_prefix l s with
  | Some s' => strip_prefix l (s ++ t) = Some (s' ++ t)
  | None => strip_prefix l (s ++ t) = None ∨
            ∃ u, strip_prefix l (s ++ t) = Some u ∧ in_tail u
  end.
Proof.
  induction l as [|a l IH]; intros s; [reflexivity|].
  destruct s as [|b s].
  - change (strip_prefix (a :: l) []) with (@None (list ascii)).
    cbn [app]. destruct (strip_prefix (a :: l) t) as [u|] eqn:Hp;
      [right|by left].
    exists u. split; [reflexivity|].
    apply strip_prefix_Some in Hp. by exists (a :: l).
  - cbn [strip_prefix app]. destruct (Ascii.eqb a b); [apply IH|by left].
Qed.

Lemma strip_prefix_free l : ∀ s,
  Forall (λ a, plain a = false) l →
  strip_prefix l (s ++ t) = (λ s', s' ++ t) <$> strip_prefix l s.
Proof.
  induction l as [|a l IH]; intros s Hl; [reflexivity|].
  inversion Hl as [|? ? Ha Hl']; subst.
  destruct s as [|b s]; cbn [strip_prefix app].
  - destruct t as [|b t']; [reflexivity|]. cbn [strip_prefix].
    inversion Ht as [|? ? Hb _]; subst.
    destruct (Ascii.eqb_spec a b) as [->|]; [congruence|reflexivity].
  - destruct (Ascii.eqb a b); [by apply IH|reflexivity].
Qed.

Lemma many_tail {R : Type} c (K K0 : list ascii → option R) : ∀ s,
  (∀ u, K (u ++ t) = K0 u) → (∀ w, in_tail w → K w = None) →
  many c (s ++ t) K = many c s K0.
Proof.
  intros s HA HF. induction s as [|a s IH]; cbn [many app].
  - rewrite many_falls_back; [apply (HA [])|].
    intros w Hne Hs. apply HF. by apply suffix_in_tail.
  - pose proof (HA (a :: s)) as Ha. cbn [app] in Ha.
    rewrite IH, Ha. reflexivity.
Qed.

Lemma many_free {R : Type} c (K K0 : list ascii → option R) : ∀ s,
  (∀ a, plain a = true → in_class c a = false) →
  (∀ u, K (u ++ t) = K0 u) →
  many c (s ++ t) K = many c s K0.
Proof.
  intros s Hc HA. induction s as [|a s IH]; cbn [many app].
  - destruct t as [|b t'] eqn:Et; [apply (HA [])|]. cbn [many].
    inversion Ht as [|? ? Hb _]; subst.
    rewrite (Hc b Hb). apply (HA []).
  - pose proof (HA (a :: s)) as Ha. cbn [app] in Ha.
    rewrite IH, Ha. reflexivity.
Qed.

Lemma group_text_tail (s u : list ascii) :
  take (length (s ++ t) - length (u ++ t)) (s ++ t) =
    take (length s - length u) s.
Proof.
  rewrite !length_app.
  replace (length s + length t - (length u + length t))%nat
    with (length s - length u)%nat by lia.
  apply take_app_le. lia.
Qed.

(** Any pattern, when what follows it fails inside the tail. *)
Lemma rmatch_tail r : ∀ s g kx k,
  (∀ u g', kx (u ++ t) g' = k u g') →
  (∀ w g', in_tail w → kx w g' = None) →
  rmatch r (s ++ t) g kx = rmatch r s g k.
Proof.
  induction r as [l|c|c|r1 IH1 r2 IH2|r1 IH1 r2 IH2|r1 IH1|m r1 IH1];
    intros s g kx k HA HF; cbn [rmatch].
  - pose proof (strip_prefix_tail (list_ascii_of_string l) s) as Hp.
    destruct (strip_prefix _ s) as [s'|].
    + rewrite Hp. apply HA.
    + destruct Hp as [->|(u & -> & Hu)]; [reflexivity|by apply HF].
  - destruct s as [|a s]; cbn [app].
    + destruct t as [|b t'] eqn:Et; [reflexivity|].
      destruct (in_class c b); [|reflexivity].
      apply many_fails. intros w [v' Hv']. apply HF.
      exists (b :: v'). split; [done|]. rewrite Et, Hv'. reflexivity.
    + destruct (in_class c a); [|reflexivity].
      apply many_tail; [intros u; apply HA|intros w Hw; by apply HF].
  - apply many_tail; [intros u; apply HA|intros w Hw; by apply HF].
  - apply IH1.
    + intros u g'. by apply IH2.
    + intros w g' Hw. by apply rmatch_fails_in_tail.
  - rewrite (IH1 s g kx k), (IH2 s g kx k) by done. reflexivity.
  - rewrite (IH1 s g kx k), HA by done. reflexivity.
  - apply IH1.
    + intros u g'. rewrite group_text_tail. apply HA.
    + intros w g' Hw. by apply HF.
Qed.

(** A pattern that never takes a plain character. *)
Lemma rmatch_free r : ∀ s g kx k,
  tail_free r →
  (∀ u g', kx (u ++ t) g' = k u g') →
  rmatch r (s ++ t) g kx = rmatch r s g k.
Proof.
  induction r as [l|c|c|r1 IH1 r2 IH2|r1 IH1 r2 IH2|r1 IH1|m r1 IH1];
    intros s g kx k Hr HA; cbn [rmatch tail_free] in *.
  - rewrite strip_prefix_free by done.
    destruct (strip_prefix _ s); [apply HA|reflexivity].
  - destruct s as [|a s]; cbn [app].
    + destruct t as [|b t'] eqn:Et; [reflexivity|].
      inversion Ht as [|? ? Hb _]; subst. by rewrite (Hr b Hb).
    + destruct (in_class c a); [|reflexivity].
      apply many_free; [exact Hr|intros u; apply HA].
  - apply many_free; [exact Hr|intros u; apply HA].
  - destruct Hr as [H1 H2]. apply IH1; [exact H1|].
    intros u g'. by apply IH2.
  - destruct Hr as [H1 H2].
    rewrite (IH1 s g kx k), (IH2 s g kx k) by done. reflexivity.
  - rewrite (IH1 s g kx k), HA by done. reflexivity.
  - apply IH1; [exact Hr|].
    intros u g'. rewrite group_text_tail. apply HA.
Qed.

(** A pattern that ends in an address: it finds nothing inside the tail,
    and the tail does not change what it finds before it. *)
Lemma rmatch_address r :
  ends_in_address r →
  (∀ u g k, in_tail u → rmatch r u g k = None) ∧
  (∀ s g kx k, (∀ u g', kx (u ++ t) g' = k u g') →
               rmatch r (s ++ t) g kx = rmatch r s g k).
Proof.
  assert (∀ r, tail_free r → tail_stuck r →
            (∀ u g k, in_tail u → rmatch r u g k = None) ∧
            (∀ s g kx k, (∀ u g', kx (u ++ t) g' = k u g') →
                         rmatch r (s ++ t) g kx = rmatch r s g k)) as Hbase.
  { intros r0 Hf Hs. split.
    - intros u g k Hu. apply rmatch_stuck; [exact Hs|by apply in_tail_head].
    - intros s g kx k HA. by apply rmatch_free. }
  induction r as [l|c|c|r1 IH1 r2 IH2|r1 IH1 r2 IH2|r1 IH1|m r1 IH1];
    cbn [ends_in_address]; intros [[Hf Hs]|H]; try (by apply Hbase);
    try done.
  - destruct (IH2 H) as [P2 P1]. split.
    + intros u g k Hu. cbn [rmatch]. apply rmatch_fails_in_tail; [|done].
      intros w g' Hw. by apply P2.
    + intros s g kx k HA. cbn [rmatch]. apply rmatch_tail.
      * intros u g'. by apply P1.
      * intros w g' Hw. by apply P2.
  - destruct H as [H1 H2].
    destruct (IH1 H1) as [P2a P1a], (IH2 H2) as [P2b P1b]. split.
    + intros u g k Hu. cbn [rmatch]. by rewrite P2a, P2b.
    + intros s g kx k HA. cbn [rmatch].
      by rewrite (P1a s g kx k), (P1b s g kx k).
  - destruct (IH1 H) as [P2 P1]. split.
    + intros u g k Hu. cbn [rmatch]. by apply P2.
    + intros s g kx k HA. cbn [rmatch]. apply P1.
      intros u g'. rewrite group_text_tail. apply HA.
Qed.

Lemma search_from_eq r s :
  search_from r s =
    match rmatch r s ∅ (λ _ g, Some g) with
    | Some g => Some g
    | None => match s with [] => None | _ :: s' => search_from r s' end
    end.
Proof. destruct s; reflexivity. Qed.

Lemma search_from_in_tail r u :
  ends_in_address r → in_tail u → search_from r u = None.
Proof.
  intros Hr. destruct (rmatch_address r Hr) as [P2 _].
  induction u as [|a u IH]; intros Hu; rewrite search_from_eq, P2 by done;
    [reflexivity|].
  apply IH. eapply in_tail_suffix; [exact Hu|]. by apply suffix_cons_r.
Qed.

Lemma search_from_tail r s :
  ends_in_address r → search_from r (s ++ t) = search_from r s.
Proof.
  intros Hr. destruct (rmatch_address r Hr) as [_ P1].
  induction s as [|a s IH].
  - rewrite (search_from_eq r ([] ++ t)), (search_from_eq r []).
    rewrite (P1 [] ∅ _ (λ _ g, Some g)) by done.
    destruct (rmatch r [] ∅ _); [reflexivity|].
    cbn [app].
    assert (∀ b t', t = b :: t' → search_from r t' = None) as Hsub.
    { intros b t' Et. apply search_from_in_tail; [exact Hr|].
      exists [b]. split; [done|]. by rewrite Et. }
    revert Hsub. generalize t. intros [|b t'] Hsub; [reflexivity|].
    by eapply Hsub.
  - rewrite (search_from_eq r ((a :: s) ++ t)), (search_from_eq r (a :: s)).
    rewrite (P1 (a :: s) ∅ _ (λ _ g, Some g)) by done.
    cbn [app]. rewrite IH. reflexivity.
Qed.

End tail.

Lemma list_ascii_of_string_app (s1 s2 : string) :
  list_ascii_of_string (s1 +:+ s2) =
    list_ascii_of_string s1 ++ list_ascii_of_string s2.
Proof.
  induction s1 as [|a s1 IH]; [reflexivity|].
  change (String a s1 +:+ s2) with (String a (s1 +:+ s2)).
  cbn [list_ascii_of_string app]. f_equal. exact IH.
Qed.

Lemma search_tail r line tail :
  ends_in_address r →
  forallb plain (list_ascii_of_string tail) = true →
  search r (line +:+ tail) = search r line.
Proof.
  intros Hr Ht. unfold search. rewrite list_ascii_of_string_app.
  apply search_from_tail; [|exact Hr].
  apply Forall_forall. intros a Ha.
  rewrite forallb_forall in Ht. apply Ht. by apply list_elem_of_In.
Qed.

Lemma plain_not_digit a : plain a = true → is_digit a = false.
Proof.
  unfold plain. intros [H _]%andb_true_iff. by apply negb_true_iff.
Qed.

Lemma ends_in_address_seq r1 r2 :
  ends_in_address r2 → ends_in_address (Seq r1 r2).
Proof. intros H. cbn [ends_in_address]. by right. Qed.

Lemma ends_in_address_quad n :
  ends_in_address (Seq (Group n DOTTED_QUAD) (Lit "")).
Proof.
  left. split.
  - cbn. repeat split; try apply plain_not_digit;
      repeat constructor.
  - cbn. apply plain_not_digit.
Qed.

Lemma patterns_end_in_address :
  ends_in_address FAILED_RE ∧ ends_in_address INVALID_USER_RE ∧
  ends_in_address ACCEPTED_RE ∧ ends_in_address PAM_FAILED_RE.
Proof.
  unfold FAILED_RE, INVALID_USER_RE, ACCEPTED_RE, PAM_FAILED_RE.
  repeat split; cbn [seqs foldr];
    repeat first [apply ends_in_address_quad | apply ends_in_address_seq].
Qed.

Lemma classify_tail line tail :
  forallb plain (list_ascii_of_string tail) = true →
  classify (line +:+ tail) = classify line.
Proof.
  intros Ht. destruct patterns_end_in_address as (H1 & H2 & H3 & H4).
  unfold classify. by rewrite !search_tail.
Qed.



(** ** The line loop *)

Lemma rstrip_list_split chars s :
  ∃ tail, s = rstrip_list chars s ++ tail ∧
          forallb (λ a, existsb (Ascii.eqb a) chars) tail = true.
Proof.
  induction s as [|a s (tail & Hs & Ht)]; [by exists []|].
  cbn [rstrip_list]. destruct (rstrip_list chars s) as [|b r] eqn:Hr.
  - destruct (existsb (Ascii.eqb a) chars) eqn:Ha.
    + exists (a :: tail). cbn [app] in *. split; [by rewrite Hs at 1|].
      cbn. by rewrite Ha.
    + exists tail. cbn [app] in *. split; [by rewrite Hs at 1|done].
  - exists tail. split; [|done]. cbn [app]. by rewrite Hs at 1.
Qed.

Lemma rstrip_list_keeps chars s a :
  existsb (Ascii.eqb a) chars = false →
  rstrip_list chars (s ++ [a]) = s ++ [a].
Proof.
  intros Ha. induction s as [|b s IH]; cbn [rstrip_list app].
  - by rewrite Ha.
  - rewrite IH. destruct (s ++ [a]) eqn:E; [|reflexivity].
    by destruct s.
Qed.

Lemma strip_chars_plain tail :
  forallb (λ a, existsb (Ascii.eqb a) (list_ascii_of_string STRIP_CHARS))
    tail = true →
  forallb plain tail = true.
Proof.
  rewrite !forallb_forall. intros H a Ha. specialize (H a Ha).
  cbn in H. rewrite orb_false_r in H.
  apply orb_true_iff in H as [H|H]; apply Ascii.eqb_eq in H; by subst.
Qed.

Lemma string_of_list_ascii_app (l1 l2 : list ascii) :
  string_of_list_ascii (l1 ++ l2) =
    string_of_list_ascii l1 +:+ string_of_list_ascii l2.
Proof.
  induction l1 as [|a l1 IH]; [reflexivity|].
  cbn [app string_of_list_ascii].
  change (String a ?x +:+ ?y) with (String a (x +:+ y)). by rewrite IH.
Qed.

Lemma classify_rstrip line : classify (rstrip STRIP_CHARS line) = classify line.
Proof.
  unfold rstrip.
  destruct (rstrip_list_split (list_ascii_of_string STRIP_CHARS)
              (list_ascii_of_string line)) as (tail & Hs & Ht).
  set (rs := rstrip_list _ _) in *.
  rewrite <- (list_ascii_of_string_of_list_ascii tail) in Ht.
  apply strip_chars_plain in Ht.
  transitivity (classify (string_of_list_ascii (rs ++ tail))).
  - by rewrite string_of_list_ascii_app, classify_tail.
  - by rewrite <- Hs, string_of_list_ascii_of_string.
Qed.

Lemma parse_lines_stripped source self :
  parse_lines (map (λ x, (x.1, rstrip STRIP_CHARS x.2)) source) self =
    process_all (events_of source) self.
Proof.
  revert self. induction source as [|[now ln] source IH]; intros self;
    [reflexivity|].
  cbn [map parse_lines fst snd]. unfold events_of.
  cbn [omap list_omap fst snd]. fold (events_of source).
  unfold mbind, M_bind. rewrite parse_line_classify, classify_rstrip.
  destruct (classify ln) as [e|]; cbn [fmap option_fmap option_map].
  - cbn [process_all]. unfold mbind, M_bind.
    destruct (process now e self) as [[[] s1] o1]. by rewrite IH.
  - rewrite IH. by destruct (process_all (events_of source) self) as [[[] ?] ?].
Qed.

(** X2. The loop of [run] is the event semantics.  Whether the lines come
    from standard input or from a running [journalctl], [run] prints its
    banner and then leaves the object and the effects that processing the
    events of the lines, in order, gives: a line counts as the event of its
    first matching pattern, a line that nothing matches is skipped, and the
    characters that [rstrip] takes off the end of a line never change its
    event. *)
Theorem run_processes_events (args : Args.t) (source : list (Z * string))
    (self : SSHEdr) :
  run args source self =
    (after (events_of source) self,
     Print (banner args) :: map Effect (out (events_of source) self)).
Proof.
  unfold run, tail_journal, after, out.
  destruct (Args.stdin args); by rewrite parse_lines_stripped.
Qed.

(** X3. What [rstrip] really removes.  The call takes off trailing
    backslashes and letters [n] and nothing else.  So a line that ends
    with a newline, as the lines read from standard input do, reaches
    [parse_line] unchanged, newline included; and a stripped line is always
    the line without some trailing run of those two characters. *)
Theorem rstrip_keeps_newline (line : string) :
  rstrip STRIP_CHARS (line +:+ NL) = line +:+ NL ∧
  ∃ tail, line = rstrip STRIP_CHARS line +:+ tail ∧
          forallb (λ a, existsb (Ascii.eqb a)
                          (list_ascii_of_string STRIP_CHARS))
            (list_ascii_of_string tail) = true.
Proof.
  split.
  - unfold rstrip. rewrite list_ascii_of_string_app.
    change (list_ascii_of_string NL) with ["010"%char].
    rewrite rstrip_list_keeps by reflexivity.
    rewrite string_of_list_ascii_app, string_of_list_ascii_of_string.
    reflexivity.
  - destruct (rstrip_list_split (list_ascii_of_string STRIP_CHARS)
                (list_ascii_of_string line)) as (tail & Hs & Ht).
    exists (string_of_list_ascii tail).
    rewrite list_ascii_of_string_of_list_ascii. split; [|exact Ht].
    unfold rstrip. set (rs := rstrip_list _ _) in *.
    rewrite <- string_of_list_ascii_app, <- Hs.
    symmetry. apply string_of_list_ascii_of_string.
Qed.

(** ** What the groups hold *)

Lemma many_sound {R : Type} c s (K : list ascii → option R) res :
  many c s K = Some res →
  ∃ p t, s = p ++ t ∧ forallb (in_class c) p = true ∧ K t = Some res.
Proof.
  induction s as [|a s IH]; cbn [many]; intros H.
  - by exists [], [].
  - destruct (in_class c a) eqn:Ha; [|by exists [], (a :: s)].
    destruct (many c s K) as [x|] eqn:Hm; [|by exists [], (a :: s)].
    injection H as ->.
    destruct (IH eq_refl) as (p & t & -> & Hp & Hk).
    exists (a :: p), t. repeat split; [|done]. cbn. by rewrite Ha, Hp.
Qed.

Section groups.
Context (P : nat → list ascii → Prop).

Lemma rmatch_sound r : ∀ s g k res,
  group_ok P r →
  rmatch r s g k = Some res →
  ∃ p t g', s = p ++ t ∧ matches r p ∧ k t g' = Some res ∧
    ∀ n txt, g' !! n = Some txt → g !! n = Some txt ∨ P n txt.
Proof.
  induction r as [l|c|c|r1 IH1 r2 IH2|r1 IH1 r2 IH2|r1 IH1|m r1 IH1];
    intros s g k res Hok; cbn [rmatch matches group_ok] in *.
  - destruct (strip_prefix _ s) as [s'|] eqn:Hp; [|done].
    apply strip_prefix_Some in Hp. intros Hk.
    exists (list_ascii_of_string l), s', g. auto.
  - destruct s as [|a s]; [done|]. destruct (in_class c a) eqn:Ha; [|done].
    intros (p & t & -> & Hp & Hk)%many_sound.
    exists (a :: p), t, g. repeat split; auto. cbn. by rewrite Ha, Hp.
  - intros (p & t & -> & Hp & Hk)%many_sound.
    exists p, t, g. auto.
  - destruct Hok as [Hok1 Hok2].
    intros (p1 & t1 & g1 & -> & Hm1 & H2 & Hg1)%IH1; [|done].
    apply IH2 in H2 as (p2 & t2 & g2 & -> & Hm2 & Hk & Hg2); [|done].
    exists (p1 ++ p2), t2, g2. repeat split.
    + by rewrite app_assoc.
    + by exists p1, p2.
    + done.
    + intros n txt Hn. destruct (Hg2 n txt Hn); auto.
  - destruct Hok as [Hok1 Hok2]. destruct (rmatch r1 s g k) eqn:H1.
    + intros [= <-]. apply IH1 in H1 as (p & t & g' & ? & ? & ? & ?); [|done].
      exists p, t, g'. auto.
    + intros (p & t & g' & ? & ? & ? & ?)%IH2; [|done].
      exists p, t, g'. auto.
  - destruct (rmatch r1 s g k) eqn:H1.
    + intros [= <-]. apply IH1 in H1 as (p & t & g' & ? & ? & ? & ?); [|done].
      exists p, t, g'. auto.
    + intros Hk. exists [], s, g. auto.
  - destruct Hok as [HP Hok1].
    intros (p & t & g1 & -> & Hm & Hk & Hg1)%IH1; [|done].
    rewrite length_app, Nat.add_sub, take_app_length in Hk.
    eexists p, t, _. repeat split; [done|exact Hk|].
    intros n txt Hn. destruct (decide (m = n)) as [->|Hne].
    + rewrite lookup_insert_eq in Hn. injection Hn as <-. right. by apply HP.
    + rewrite lookup_insert_ne in Hn by done. auto.
Qed.

Lemma search_from_sound r s m n txt :
  group_ok P r → search_from r s = Some m → m !! n = Some txt → P n txt.
Proof.
  intros Hok Hs Hn. induction s as [|a s IH]; rewrite search_from_eq in Hs.
  - destruct (rmatch r [] ∅ _) eqn:Hm; [|done]. injection Hs as ->.
    apply rmatch_sound in Hm as (p & t & g' & _ & _ & [= ->] & Hg); [|done].
    destruct (Hg n txt Hn) as [H|H]; [by rewrite lookup_empty in H|done].
  - destruct (rmatch r (a :: s) ∅ _) eqn:Hm; [|auto]. injection Hs as ->.
    apply rmatch_sound in Hm as (p & t & g' & _ & _ & [= ->] & Hg); [|done].
    destruct (Hg n txt Hn) as [H|H]; [by rewrite lookup_empty in H|done].
Qed.

End groups.

Lemma fields_digits d : forallb is_digit d = true → fields "." d = [d].
Proof.
  induction d as [|a d IH]; [reflexivity|]. cbn [forallb fields].
  intros [Ha Hd]%andb_true_iff. rewrite (IH Hd).
  destruct (Ascii.eqb_spec a "."%char) as [->|]; [discriminate|reflexivity].
Qed.

Lemma fields_digits_dot d rest :
  forallb is_digit d = true →
  fields "." (d ++ "."%char :: rest) = d :: fields "." rest.
Proof.
  induction d as [|a d IH]; [reflexivity|]. cbn [forallb fields app].
  intros [Ha Hd]%andb_true_iff. rewrite (IH Hd).
  destruct (Ascii.eqb_spec a "."%char) as [->|]; [discriminate|reflexivity].
Qed.

Lemma plus_digit_digits p : matches (Plus Digit) p → digits p = true ∧ forallb is_digit p = true.
Proof.
  cbn. intros [Hne Hp]. split; [|exact Hp]. by destruct p.
Qed.

Lemma matches_dotted_quad p :
  matches DOTTED_QUAD p → dotted_quad (string_of_list_ascii p) = true.
Proof.
  unfold DOTTED_QUAD. cbn [seqs foldr]. cbn [matches].
  intros (d1 & ? & -> & H1 & ? & ? & -> & -> &
          d2 & ? & -> & H2 & ? & ? & -> & -> &
          d3 & ? & -> & H3 & ? & ? & -> & -> &
          d4 & ? & -> & H4 & ->).
  apply (plus_digit_digits d1) in H1 as [N1 D1].
  apply (plus_digit_digits d2) in H2 as [N2 D2].
  apply (plus_digit_digits d3) in H3 as [N3 D3].
  apply (plus_digit_digits d4) in H4 as [N4 D4].
  unfold dotted_quad. rewrite list_ascii_of_string_of_list_ascii.
  cbn [list_ascii_of_string app]. rewrite app_nil_r.
  rewrite !fields_digits_dot, fields_digits by done.
  by rewrite N1, N2, N3, N4.
Qed.

Lemma matches_user p :
  matches (Plus NonSpace) p → user_ok (string_of_list_ascii p) = true.
Proof.
  cbn. intros [Hne Hp]. unfold user_ok.
  rewrite list_ascii_of_string_of_list_ascii. by destruct p.
Qed.

Lemma patterns_group_ok :
  group_ok (group_shape 2 3) FAILED_RE ∧
  group_ok (group_shape 1 2) INVALID_USER_RE ∧
  group_ok (group_shape 1 2) ACCEPTED_RE ∧
  group_ok (group_shape 0 1) PAM_FAILED_RE.
Proof.
  unfold FAILED_RE, INVALID_USER_RE, ACCEPTED_RE, PAM_FAILED_RE, group_shape.
  cbn [seqs foldr group_ok].
  repeat split; try done; try (intros; by apply matches_dotted_quad);
    try (intros; by apply matches_user).
Qed.

Lemma search_group_shape r line m n u i :
  group_ok (group_shape u i) r → binds r n = true →
  search r line = Some m →
  group_shape u i n (list_ascii_of_string (group n m)).
Proof.
  intros Hok Hb Hs. unfold search in Hs.
  destruct (search_from_binds r _ m n Hs Hb) as [txt Hn].
  unfold group. rewrite Hn. cbn [default from_option].
  rewrite list_ascii_of_string_of_list_ascii.
  by eapply search_from_sound.
Qed.



(** ** Dry run as a rehearsal *)

Lemma process_set_flags dry execute now e self :
  alerts_of (effects_of (process now e (set_flags dry execute self))) =
    alerts_of (effects_of (process now e self)) ∧
  state_of (process now e (set_flags dry execute self)) =
    set_flags dry execute (state_of (process now e self)).
Proof.
  destruct self as [ft w it f iu sl ku al dr ex].
  destruct e as [ip|ip u|u ip|ip]; cbn [process].
  - pose proof (record_failed_eq now ip) as H. cbv zeta in H. rewrite !H.
    unfold set_flags, state_of, effects_of. cbn.
    destruct (len _ >=? ft); [|done].
    split; [|reflexivity]. by destruct dry, execute, dr, ex.
  - pose proof (record_invalid_user_eq now ip u) as H. cbv zeta in H.
    rewrite !H. unfold set_flags, state_of, effects_of. cbn.
    destruct (len _ >=? it); [|done].
    split; [|reflexivity]. by destruct dry, execute, dr, ex.
  - rewrite !record_success_eq. split; reflexivity.
  - pose proof (record_failed_eq now ip) as H. cbv zeta in H. rewrite !H.
    unfold set_flags, state_of, effects_of. cbn.
    destruct (len _ >=? ft); [|done].
    split; [|reflexivity]. by destruct dry, execute, dr, ex.
Qed.

(** X14. Dry run is a faithful rehearsal.  The two flags change nothing
    but the block commands: over any sequence of events, from any state,
    an object with other values of [dry_run] and [execute_block] raises
    the same alerts in the same order and ends with the same windows,
    known addresses, histories and alert log. *)
Theorem flags_do_not_change_detection (dry execute : bool) (self : SSHEdr)
    (log : list (Z * event)) :
  alerts_of (out log (set_flags dry execute self)) =
    alerts_of (out log self) ∧
  after log (set_flags dry execute self) =
    set_flags dry execute (after log self).
Proof.
  revert self. induction log as [|[now e] log IH]; intros self; [done|].
  rewrite !out_cons, !after_cons, !alerts_of_app.
  destruct (process_set_flags dry execute now e self) as [-> ->].
  destruct (IH (state_of (process now e self))) as [-> ->]. done.
Qed.
